(** * Reed-Solomon erasure code over GF(2^16) in the novel polynomial basis

    A shallow embedding of [vendor/reed-solomon-novelpoly/cxx/RSErasureCode.c]
    (Lin, Han and Chung, FOCS14) and the properties of its field tables,
    transforms, encoder and decoder.

    Conventions of the embedding.
    - A [GFSymbol] ([unsigned short]) is a [Z]; every store into a [GFSymbol]
      array converts the stored value with [u16].  [int] arithmetic is
      arithmetic on [Z]: with sizes up to [FIELD_SIZE] no [int] expression of
      the program leaves the 32-bit range.
    - A C array is a [buf]: its declared length, the cells written so far (a
      cell never written reads 0, as static storage does), and the index of the
      first store that fell outside the array, if any.  The C program has no
      defined behaviour for such an access; the embedding keeps running, drops
      the store, remembers its index and lets a load outside the array
      yield 0.
    - A pointer into the middle of an array ([&codeword[i]]) is the array
      together with an offset.
    - A [for] loop is a fold of its body over the sequence of its indices
      ([for_idx]); the three loop shapes of the program ([i += step],
      [d <<= 1], [d >>= 1]) get the fuel that their bounds allow, so that they
      always run to completion. *)

From Stdlib Require Import Uint63.
From stdpp Require Import base tactics option numbers list fin_maps zmap.

Local Open Scope Z_scope.

(** ** Constants *)

Definition FIELD_BITS : Z := 16.
Definition FIELD_SIZE : Z := 1 ≪ FIELD_BITS.
Definition MODULO : Z := FIELD_SIZE - 1.

(** x^16 + x^5 + x^3 + x^2 + 1 *)
Definition mask : Z := 0x2D.

(** Cantor basis *)
Definition Base : list Z :=
  [1; 44234; 15374; 5694; 50562; 60718; 37196; 16402;
   27800; 4312; 27250; 47360; 64952; 64308; 65336; 39198].

(** Conversion to [unsigned short]. *)
Definition u16 (v : Z) : Z := Z.land v 65535.

(** ** Arrays *)

Record buf := Buf {
  len : Z;
  cells : Zmap Z;
  oob : option Z
}.

Definition zeros (n : Z) : buf := Buf n ∅ None.

Definition inb (b : buf) (i : Z) : bool := (0 <=? i) && (i <? len b).

(** [b[i]] *)
Definition rd (b : buf) (i : Z) : Z :=
  if inb b i then default 0 (cells b !! i) else 0.

(** [b[i] = v] for an array of [GFSymbol] *)
Definition wr (b : buf) (i v : Z) : buf :=
  if inb b i then Buf (len b) (<[i := u16 v]> (cells b)) (oob b)
  else Buf (len b) (cells b) (match oob b with None => Some i | o => o end).

(** An array holding the elements of a list, and back. *)
Fixpoint fill (b : buf) (i : Z) (l : list Z) : buf :=
  match l with
  | [] => b
  | v :: l => fill (wr b i v) (i + 1) l
  end.

Definition of_list (l : list Z) : buf := fill (zeros (Z.of_nat (length l))) 0 l.

(** ** Loops *)

Fixpoint for_idx (fuel : nat) (cond : Z → bool) (next : Z → Z) (i : Z) : list Z :=
  match fuel with
  | O => []
  | S fuel => if cond i then i :: for_idx fuel cond next (next i) else []
  end.

(** [for (i = a; i < b; i += step)], [step] positive *)
Definition up (a b step : Z) : list Z :=
  for_idx (Z.to_nat (b - a)) (λ i, i <? b) (λ i, i + step) a.

(** [for (d = a; d < b; d <<= 1)], [a] positive *)
Definition shl_up (a b : Z) : list Z :=
  for_idx (Z.to_nat b) (λ d, d <? b) (λ d, d ≪ 1) a.

(** [for (d = a; d > 0; d >>= 1)] *)
Definition shr_down (a : Z) : list Z :=
  for_idx (Z.to_nat a) (λ d, 0 <? d) (λ d, d ≫ 1) a.

Definition for_up {St} (a b step : Z) (body : Z → St → St) (s : St) : St :=
  foldl (λ s i, body i s) s (up a b step).

Definition for_shl {St} (a b : Z) (body : Z → St → St) (s : St) : St :=
  foldl (λ s i, body i s) s (shl_up a b).

Definition for_shr {St} (a : Z) (body : Z → St → St) (s : St) : St :=
  foldl (λ s i, body i s) s (shr_down a).

(** [memcpy(&dst[doff], &src[soff], count * sizeof(GFSymbol))]; the two
    regions never overlap in this program. *)
Definition memcpy (dst : buf) (doff : Z) (src : buf) (soff count : Z) : buf :=
  for_up 0 count 1 (λ i dst, wr dst (doff + i) (rd src (soff + i))) dst.

(** ** Global tables *)

Record tables := Tables {
  LOG_TABLE : buf;
  EXP_TABLE : buf;
  skewVec : buf;
  B : buf;
  log_walsh : buf
}.

(** The tables as the program starts: static storage, all zero. *)
Definition tables0 : tables :=
  Tables (zeros FIELD_SIZE) (zeros FIELD_SIZE) (zeros MODULO)
         (zeros (FIELD_SIZE ≫ 1)) (zeros FIELD_SIZE).

(** ** Field multiply *)

(** [(x & MODULO) + (x >> FIELD_BITS)] *)
Definition fold_red (x : Z) : Z := Z.land x MODULO + (x ≫ FIELD_BITS).

(** The index into [EXP_TABLE] that [mulE] uses for a nonzero [a]. *)
Definition mulE_index (t : tables) (a b : Z) : Z :=
  fold_red (rd (LOG_TABLE t) a + b).

(** return a*EXP_TABLE[b] over GF(2^r) *)
Definition mulE (t : tables) (a b : Z) : Z :=
  let a := u16 a in
  let b := u16 b in
  if negb (a =? 0) then rd (EXP_TABLE t) (mulE_index t a b) else 0.

(** ** Walsh-Hadamard transform *)

Definition walsh (data : buf) (size : Z) : buf :=
  for_shl 1 size (λ depart_no data,
    for_up 0 size (depart_no ≪ 1) (λ j data,
      for_up j (depart_no + j) 1 (λ i data,
        let tmp2 := rd data i + MODULO - rd data (i + depart_no) in
        let data := wr data i (fold_red (rd data i + rd data (i + depart_no))) in
        wr data (i + depart_no) (fold_red tmp2)) data) data) data.

(** ** Formal derivative *)

Definition formal_derivative (cos : buf) (size : Z) : buf :=
  for_up 1 size 1 (λ i cos,
    let leng := (Z.lxor i (i - 1) + 1) ≫ 1 in
    for_up (i - leng) i 1 (λ j cos,
      wr cos j (Z.lxor (rd cos j) (rd cos (j + leng)))) cos) cos.

(** ** The transform pair; [data] is the array at offset [off] *)

Definition IFLT (t : tables) (data : buf) (off size index : Z) : buf :=
  for_shl 1 size (λ depart_no data,
    for_up depart_no size (depart_no ≪ 1) (λ j data,
      let data := for_up (j - depart_no) j 1 (λ i data,
        wr data (off + (i + depart_no))
           (Z.lxor (rd data (off + (i + depart_no))) (rd data (off + i)))) data in
      let skew := rd (skewVec t) (j + index - 1) in
      if negb (skew =? MODULO) then
        for_up (j - depart_no) j 1 (λ i data,
          wr data (off + i)
             (Z.lxor (rd data (off + i))
                     (mulE t (rd data (off + (i + depart_no))) skew))) data
      else data) data) data.

Definition FLT (t : tables) (data : buf) (off size index : Z) : buf :=
  for_shr (size ≫ 1) (λ depart_no data,
    for_up depart_no size (depart_no ≪ 1) (λ j data,
      let skew := rd (skewVec t) (j + index - 1) in
      let data :=
        if negb (skew =? MODULO) then
          for_up (j - depart_no) j 1 (λ i data,
            wr data (off + i)
               (Z.lxor (rd data (off + i))
                       (mulE t (rd data (off + (i + depart_no))) skew))) data
        else data in
      for_up (j - depart_no) j 1 (λ i data,
        wr data (off + (i + depart_no))
           (Z.lxor (rd data (off + (i + depart_no))) (rd data (off + i)))) data)
    data) data.

(** ** Field tables *)

Definition init_exp_walk (exp : buf) : buf :=
  let mas := u16 ((1 ≪ (FIELD_BITS - 1)) - 1) in
  fst (for_up 0 MODULO 1 (λ i '(exp, state),
    let exp := wr exp state i in
    let state :=
      if negb (state ≫ (FIELD_BITS - 1) =? 0) then
        let state := u16 (Z.land state mas) in
        u16 (Z.lxor (state ≪ 1) mask)
      else u16 (state ≪ 1) in
    (exp, state)) (exp, 1)).

Definition init (t : tables) : tables :=
  let exp := init_exp_walk (EXP_TABLE t) in
  let exp := wr exp 0 MODULO in
  let log := wr (LOG_TABLE t) 0 0 in
  let log := for_up 0 FIELD_BITS 1 (λ i log,
    for_up 0 (1 ≪ i) 1 (λ j log,
      wr log (j + (1 ≪ i)) (Z.lxor (rd log j) (nth (Z.to_nat i) Base 0))) log) log in
  let log := for_up 0 FIELD_SIZE 1 (λ i log, wr log i (rd exp (rd log i))) log in
  let exp := for_up 0 FIELD_SIZE 1 (λ i exp, wr exp (rd log i) i) exp in
  let exp := wr exp MODULO (rd exp 0) in
  Tables log exp (skewVec t) (B t) (log_walsh t).

(** ** Decode tables *)

(** The doubling passes of [init_dec]: they fill [skewVec] with field
    elements and leave the adjusted [base] array. *)
Definition init_dec_skew (t : tables) (skew : buf) : buf * buf :=
  let base := zeros (FIELD_BITS - 1) in
  let base := for_up 1 FIELD_BITS 1 (λ i base, wr base (i - 1) (1 ≪ i)) base in
  for_up 0 (FIELD_BITS - 1) 1 (λ m '(skew, base),
    let step := 1 ≪ (m + 1) in
    let skew := wr skew ((1 ≪ m) - 1) 0 in
    let skew := for_up m (FIELD_BITS - 1) 1 (λ i skew,
      let s := 1 ≪ (i + 1) in
      for_up ((1 ≪ m) - 1) s step (λ j skew,
        wr skew (j + s) (Z.lxor (rd skew j) (rd base i))) skew) skew in
    let base := wr base m
      (MODULO - rd (LOG_TABLE t)
                   (mulE t (rd base m) (rd (LOG_TABLE t) (Z.lxor (rd base m) 1)))) in
    let base := for_up (m + 1) (FIELD_BITS - 1) 1 (λ i base,
      wr base i (mulE t (rd base i)
                   ((rd (LOG_TABLE t) (Z.lxor (rd base i) 1) + rd base m) `mod` MODULO)))
      base in
    (skew, base)) (skew, base).

(** The final pass over [skewVec]: every entry to log form. *)
Definition init_dec_log (t : tables) (skew : buf) : buf :=
  for_up 0 FIELD_SIZE 1 (λ i skew, wr skew i (rd (LOG_TABLE t) (rd skew i))) skew.

Definition init_dec_B (base B : buf) : buf :=
  let base := wr base 0 (MODULO - rd base 0) in
  let base := for_up 1 (FIELD_BITS - 1) 1 (λ i base,
    wr base i ((MODULO - rd base i + rd base (i - 1)) `mod` MODULO)) base in
  let B := wr B 0 0 in
  for_up 0 (FIELD_BITS - 1) 1 (λ i B,
    let depart := 1 ≪ i in
    for_up 0 depart 1 (λ j B,
      wr B (j + depart) ((rd B j + rd base i) `mod` MODULO)) B) B.

Definition init_dec (t : tables) : tables :=
  let '(skew, base) := init_dec_skew t (skewVec t) in
  let skew := init_dec_log t skew in
  let B := init_dec_B base (B t) in
  let lw := memcpy (log_walsh t) 0 (LOG_TABLE t) 0 FIELD_SIZE in
  let lw := wr lw 0 0 in
  let lw := walsh lw FIELD_SIZE in
  Tables (LOG_TABLE t) (EXP_TABLE t) skew B lw.

Definition setup (t : tables) : tables := init_dec (init t).

(** ** Encoder *)

(** Encoding alg for k/n<0.5: message is a power of two *)
Definition encodeL (t : tables) (data : buf) (k : Z) (codeword : buf) (n : Z) : buf :=
  let codeword := memcpy codeword 0 data 0 k in
  let codeword := IFLT t codeword 0 k 0 in
  let codeword := for_up k n k (λ i codeword,
    let codeword := memcpy codeword i codeword 0 k in
    FLT t codeword i k i) codeword in
  memcpy codeword 0 data 0 k.

(** ** Decoder *)

(** Compute the evaluations of the error locator polynomial *)
Definition decode_init (t : tables) (erasure log_walsh2 : buf) (n : Z) : buf :=
  let lw2 := for_up 0 n 1 (λ i lw2, wr lw2 i (rd erasure i)) log_walsh2 in
  let lw2 := walsh lw2 FIELD_SIZE in
  let lw2 := for_up 0 n 1 (λ i lw2,
    wr lw2 i ((rd lw2 i * rd (log_walsh t) i) `mod` MODULO)) lw2 in
  let lw2 := walsh lw2 FIELD_SIZE in
  for_up 0 n 1 (λ i lw2,
    if negb (rd erasure i =? 0) then wr lw2 i (MODULO - rd lw2 i) else lw2) lw2.

Definition decode_scale (t : tables) (codeword erasure log_walsh2 : buf) (n : Z) : buf :=
  for_up 0 n 1 (λ i codeword,
    wr codeword i
       (if negb (rd erasure i =? 0) then 0
        else mulE t (rd codeword i) (rd log_walsh2 i))) codeword.

Definition decode_recover (t : tables) (codeword erasure log_walsh2 : buf)
    (recover_chunks : Z) : buf :=
  for_up 0 recover_chunks 1 (λ i codeword,
    wr codeword i
       (if negb (rd erasure i =? 0) then mulE t (rd codeword i) (rd log_walsh2 i)
        else 0)) codeword.

Definition decode_main (t : tables) (codeword : buf) (k : Z)
    (erasure log_walsh2 : buf) (n : Z) : buf :=
  let recover_chunks := k in
  let codeword := decode_scale t codeword erasure log_walsh2 n in
  let codeword := IFLT t codeword 0 n 0 in
  let codeword := for_up 0 n 2 (λ i codeword,
    let codeword := wr codeword i (mulE t (rd codeword i) (MODULO - rd (B t) (i ≫ 1))) in
    wr codeword (i + 1) (mulE t (rd codeword (i + 1)) (MODULO - rd (B t) (i ≫ 1))))
    codeword in
  let codeword := formal_derivative codeword n in
  let codeword := for_up 0 n 2 (λ i codeword,
    let codeword := wr codeword i (mulE t (rd codeword i) (rd (B t) (i ≫ 1))) in
    wr codeword (i + 1) (mulE t (rd codeword (i + 1)) (rd (B t) (i ≫ 1))))
    codeword in
  let codeword := FLT t codeword 0 n 0 in
  decode_recover t codeword erasure log_walsh2 recover_chunks.

(** * Notions used in the properties *)

(** ** Arrays of symbols, arrays with the same contents *)

(** Every cell holds a 16-bit value. *)
Definition symbols (b : buf) : Prop := ∀ i, 0 ≤ rd b i < 65536.

(** Same length and same contents. *)
Definition same (a b : buf) : Prop := len a = len b ∧ ∀ i, rd a i = rd b i.

(** ** The transform pair, stage by stage *)

(** The stage sizes [1, 2, ..., 2 ^ (p - 1)] of a transform of [2 ^ p] cells. *)
Definition pows (p : nat) : list Z := (λ e : nat, 2 ^ Z.of_nat e) <$> seq 0 p.

(** [y] is [x] with the pairs of cells [(base + k, base + d + k)], [k < d],
    replaced by their images under [pm]; nothing else differs. *)
Definition pairs_of (base d : Z) (pm : Z → Z → Z * Z) (x y : buf) : Prop :=
  len y = len x ∧ oob y = oob x ∧
  (∀ k, 0 ≤ k < d →
     rd y (base + k) = (pm (rd x (base + k)) (rd x (base + d + k))).1 ∧
     rd y (base + d + k) = (pm (rd x (base + k)) (rd x (base + d + k))).2) ∧
  (∀ p, ¬ (base ≤ p < base + 2 * d) → rd y p = rd x p).

(** The two inner loops that [IFLT] and [FLT] share. *)
Definition xor_hi (off d j : Z) (data : buf) : buf :=
  for_up (j - d) j 1 (λ i data,
    wr data (off + (i + d))
       (Z.lxor (rd data (off + (i + d))) (rd data (off + i)))) data.

Definition mul_lo (t : tables) (off d j skew : Z) (data : buf) : buf :=
  for_up (j - d) j 1 (λ i data,
    wr data (off + i)
       (Z.lxor (rd data (off + i)) (mulE t (rd data (off + (i + d))) skew))) data.

Definition phi_xor (lo hi : Z) : Z * Z := (lo, u16 (Z.lxor hi lo)).

Definition phi_mul (t : tables) (skew lo hi : Z) : Z * Z :=
  if negb (skew =? MODULO) then (u16 (Z.lxor lo (mulE t hi skew)), hi) else (lo, hi).

Definition phiI (t : tables) (skew lo hi : Z) : Z * Z :=
  phi_mul t skew (phi_xor lo hi).1 (phi_xor lo hi).2.

Definition phiF (t : tables) (skew lo hi : Z) : Z * Z :=
  phi_xor (phi_mul t skew lo hi).1 (phi_mul t skew lo hi).2.

(** The body of the [j] loop of [IFLT] and of [FLT]. *)
Definition blockI (t : tables) (off index d j : Z) (data : buf) : buf :=
  let data := xor_hi off d j data in
  let skew := rd (skewVec t) (j + index - 1) in
  if negb (skew =? MODULO) then mul_lo t off d j skew data else data.

Definition blockF (t : tables) (off index d j : Z) (data : buf) : buf :=
  let skew := rd (skewVec t) (j + index - 1) in
  let data := if negb (skew =? MODULO) then mul_lo t off d j skew data else data in
  xor_hi off d j data.

Definition stageI (t : tables) (off size index d : Z) (data : buf) : buf :=
  for_up d size (d ≪ 1) (λ j data, blockI t off index d j data) data.

Definition stageF (t : tables) (off size index d : Z) (data : buf) : buf :=
  for_up d size (d ≪ 1) (λ j data, blockF t off index d j data) data.

(** The blocks [js] of a stage do not overlap. *)
Definition apart (d : Z) (base : Z → Z) (js : list Z) : Prop :=
  ∀ j j', j ∈ js → j' ∈ js → j ≠ j' →
    base j + 2 * d ≤ base j' ∨ base j' + 2 * d ≤ base j.

(** [op j] acts on block [j] as the pair map [pm j]. *)
Definition block_ops (d n : Z) (base : Z → Z) (pm : Z → Z → Z → Z * Z)
    (op : Z → buf → buf) (js : list Z) : Prop :=
  ∀ j x, j ∈ js → len x = n → pairs_of (base j) d (pm j) x (op j x).

(** Same contents and same out-of-bounds record. *)
Definition alike (a b : buf) : Prop := same a b ∧ oob a = oob b.

(** ** A Walsh-Hadamard transform on machine integers

    The same butterflies as [walsh], stage by stage, on a list of 63-bit
    machine integers.  It is related to [walsh] by a simulation
    ([walsh_fast]) and serves only to evaluate transforms of 2^16 cells. *)

Module Fast.

Definition fold_red (x : int) : int := ((x land 65535) + (x >> 16))%uint63.

Definition bsum (a b : int) : int := (fold_red (a + b) land 65535)%uint63.

Definition bdiff (a b : int) : int := (fold_red (a + 65535 - b) land 65535)%uint63.

(** The identity on lists; evaluating its result evaluates every element of
    the list, so that a stage does not keep the previous one alive. *)
Definition sync (l : list int) : list int :=
  if (foldl Uint63.add 0%uint63 l =? 0)%uint63 then l else l.

(** One stage: [blocks] blocks of [d] low cells followed by [d] high cells. *)
Fixpoint stage (blocks d : nat) (l : list int) : list int :=
  match blocks with
  | O => l
  | S blocks =>
      let lo := take d l in
      let hi := take d (drop d l) in
      zip_with bsum lo hi ++ zip_with bdiff lo hi ++ stage blocks d (drop (d + d) l)
  end.

(** The stages [d = 1, 2, ..., 2 ^ (p - 1)] of a transform of [2 ^ p] cells. *)
Definition walsh (p : nat) (l : list int) : list int :=
  foldl (λ l e, sync (stage (2 ^ (p - S e)) (2 ^ e) l)) l (seq 0 p).

Definition load (x : buf) : list int :=
  (λ i, of_Z (rd x i)) <$> up 0 FIELD_SIZE 1.

Fixpoint store (x : buf) (i : Z) (l : list int) : buf :=
  match l with
  | [] => x
  | v :: l => store (wr x i (to_Z v)) (i + 1) l
  end.

End Fast.

(** The identity on arrays; evaluating its result evaluates every cell. *)
Definition settle (b : buf) : buf :=
  if (foldl (λ s i, s + of_Z (rd b i))%uint63 0%uint63 (up 0 (len b) 1) =? 0)%uint63
  then b else b.

Definition fwalsh (x : buf) : buf :=
  settle (Fast.store x 0 (Fast.walsh 16 (Fast.sync (Fast.load x)))).

(** The list [l] holds the contents of [x], an array of [FIELD_SIZE] symbols. *)
Definition sim (x : buf) (l : list int) : Prop :=
  len x = FIELD_SIZE ∧ Z.of_nat (length l) = FIELD_SIZE ∧
  ∀ (k : nat) (v : int), l !! k = Some v →
    to_Z v = rd x (Z.of_nat k) ∧ to_Z v < 65536.

(** ** [walsh], stage by stage *)

(** The map of one butterfly of [walsh] on a pair of cells. *)
Definition phi_walsh (lo hi : Z) : Z * Z :=
  (u16 (fold_red (lo + hi)), u16 (fold_red (lo + MODULO - hi))).

(** The body of the [j] loop of [walsh], and one stage. *)
Definition block_walsh (d j : Z) (data : buf) : buf :=
  for_up j (d + j) 1 (λ i data,
    let tmp2 := rd data i + MODULO - rd data (i + d) in
    let data := wr data i (fold_red (rd data i + rd data (i + d))) in
    wr data (i + d) (fold_red tmp2)) data.

Definition stage_walsh (size d : Z) (data : buf) : buf :=
  for_up 0 size (d ≪ 1) (λ j data, block_walsh d j data) data.

(** ** The driver *)

(** [for (i = 0; i < n; i++) if (erasure[i]) codeword[i] = 0;] of [roundtrip] *)
Definition erase (codeword erasure : buf) (n : Z) : buf :=
  for_up 0 n 1 (λ i codeword,
    if negb (rd erasure i =? 0) then wr codeword i 0 else codeword) codeword.

(** An erasure mask of [FIELD_SIZE] entries, 1 at the given positions. *)
Definition mask_of (positions : list Z) : buf :=
  foldl (λ b i, wr b i 1) (zeros FIELD_SIZE) positions.

(** ** The evaluation path *)

(** The array that [init_dec] hands to [walsh]. *)
Definition init_dec_lw_in (t : tables) : buf :=
  wr (memcpy (log_walsh t) 0 (LOG_TABLE t) 0 FIELD_SIZE) 0 0.

(** [init], [init_dec] and [decode_init] for evaluation: the same
    computations, settled after each pass, with [fwalsh] for [walsh]. *)
Definition init_fast (t : tables) : tables :=
  let exp := settle (init_exp_walk (EXP_TABLE t)) in
  let exp := wr exp 0 MODULO in
  let log := wr (LOG_TABLE t) 0 0 in
  let log := settle (for_up 0 FIELD_BITS 1 (λ i log,
    for_up 0 (1 ≪ i) 1 (λ j log,
      wr log (j + (1 ≪ i)) (Z.lxor (rd log j) (nth (Z.to_nat i) Base 0))) log) log) in
  let log := settle (for_up 0 FIELD_SIZE 1 (λ i log, wr log i (rd exp (rd log i))) log) in
  let exp := settle (for_up 0 FIELD_SIZE 1 (λ i exp, wr exp (rd log i) i) exp) in
  let exp := wr exp MODULO (rd exp 0) in
  Tables log exp (skewVec t) (B t) (log_walsh t).

Definition init_dec_fast (t : tables) : tables :=
  let '(skew, base) := init_dec_skew t (skewVec t) in
  Tables (LOG_TABLE t) (EXP_TABLE t) (settle (init_dec_log t (settle skew)))
         (settle (init_dec_B base (B t)))
         (fwalsh (init_dec_lw_in t)).

Definition setup_fast (t : tables) : tables := init_dec_fast (init_fast t).

Definition decode_init_fast (t : tables) (erasure log_walsh2 : buf) (n : Z) : buf :=
  let lw2 := settle (for_up 0 n 1 (λ i lw2, wr lw2 i (rd erasure i)) log_walsh2) in
  let lw2 := fwalsh lw2 in
  let lw2 := settle (for_up 0 n 1 (λ i lw2,
    wr lw2 i ((rd lw2 i * rd (log_walsh t) i) `mod` MODULO)) lw2) in
  let lw2 := fwalsh lw2 in
  for_up 0 n 1 (λ i lw2,
    if negb (rd erasure i =? 0) then wr lw2 i (MODULO - rd lw2 i) else lw2) lw2.

(** Tables that differ at most in the representation of [log_walsh]. *)
Definition tables_alike (t t' : tables) : Prop :=
  LOG_TABLE t = LOG_TABLE t' ∧ EXP_TABLE t = EXP_TABLE t' ∧
  skewVec t = skewVec t' ∧ B t = B t' ∧ same (log_walsh t) (log_walsh t').

(** ** The decoding pipeline of the driver *)

(** Lines 281-318 of [roundtrip], for a given message, erasure mask and
    locator array: encode, erase, decode. *)
Definition decode_with (t : tables) (data : buf) (k : Z) (codeword : buf) (n : Z)
    (erasure log_walsh2 : buf) : buf :=
  let codeword := encodeL t data k codeword n in
  let codeword := erase codeword erasure n in
  decode_main t codeword k erasure log_walsh2 n.

(** The same with the locator array computed as [roundtrip] does, over all
    [FIELD_SIZE] entries, from the array [scratch]. *)
Definition decode_run (t : tables) (data : buf) (k : Z) (codeword : buf) (n : Z)
    (erasure scratch : buf) : buf :=
  decode_with t data k codeword n erasure (decode_init t erasure scratch FIELD_SIZE).

(** [k = 4], [n = 8], message 1 2 3 5, positions 0 and 1 erased. *)
Definition scenario_k4_n8 (scratch : buf) : buf :=
  decode_run (setup tables0) (of_list [1; 2; 3; 5]) 4 (zeros 8) 8 (mask_of [0; 1]) scratch.

(** [k = 2], [n = 6], message 1 2, positions 0 and 1 erased, in a codeword
    array of [cells] symbols. *)
Definition scenario_k2_n6 (cells : Z) (scratch : buf) : buf :=
  decode_run (setup tables0) (of_list [1; 2]) 2 (zeros cells) 6 (mask_of [0; 1]) scratch.

(** The first entries of the locator array for the mask with positions 0 and 1
    erased. *)
Definition locator01 : list Z := [0; 0; 65535; 65535; 21845; 21845; 43690; 43690].

(** ** The self-test of the transform pair *)

(** The array [expected] of [test_flt_roundtrip]. *)
Definition test_flt_expected : list Z :=
  [1; 2; 3; 5; 8; 13; 21; 44; 65; 0; 65535; 2; 3; 5; 7; 11].

(** [test_flt_roundtrip]: [FLT] then [IFLT] on a copy of [expected], with
    [N = 16] and index [N / 4]; the result is [true] when every [assert] of
    the final loop holds. *)
Definition test_flt_roundtrip (t : tables) : bool :=
  let N := 16 in
  let expected := of_list test_flt_expected in
  let data := memcpy (zeros N) 0 expected 0 N in
  let data := FLT t data 0 N (N `quot` 4) in
  let data := IFLT t data 0 N (N `quot` 4) in
  forallb (λ i, rd data i =? rd expected i) (up 0 N 1).

(** ** Checks to be evaluated

    Each check is a boolean function of the tables it inspects; its meaning
    is proved for arbitrary tables, and it is evaluated on the tables that
    [setup] builds. *)

Definition cert_init (t : tables) : bool :=
  forallb (λ x, (rd (EXP_TABLE t) (rd (LOG_TABLE t) x) =? x)
                && (0 <=? rd (LOG_TABLE t) x) && (rd (LOG_TABLE t) x <? MODULO))
          (up 1 FIELD_SIZE 1)
  && (rd (EXP_TABLE t) MODULO =? rd (EXP_TABLE t) 0)
  && (rd (LOG_TABLE t) 1 =? 0).

Definition cert_skew (s : buf) : bool :=
  bool_decide (oob s = None) && (len s =? MODULO).

Definition cert_again (once twice : tables) : bool :=
  (rd (skewVec once) 32767 =? 65535) && (rd (skewVec twice) 32767 =? 45925).

Definition cert_locator (t : tables) : bool :=
  let lw2 := decode_init_fast t (mask_of [0; 1]) (zeros FIELD_SIZE) FIELD_SIZE in
  forallb (λ i, rd lw2 i =? rd (of_list locator01) i) (up 0 8 1).

Definition cert_decode (t : tables) : bool :=
  let er := mask_of [0; 1] in
  let lw2 := of_list locator01 in
  let r7 := decode_with t (of_list [1; 2; 3; 5]) 4 (zeros 8) 8 er lw2 in
  let r6 := decode_with t (of_list [1; 2]) 2 (zeros 6) 6 er lw2 in
  let r8 := decode_with t (of_list [1; 2]) 2 (zeros 8) 6 er lw2 in
  (rd r7 0 =? 1) && (rd r7 1 =? 2) && (rd r7 2 =? 0) && (rd r7 3 =? 0)
  && bool_decide (oob r7 = None)
  && (rd r6 0 =? 2) && (rd r6 1 =? 1) && bool_decide (oob r6 = Some 6)
  && (rd r8 0 =? 3) && (rd r8 1 =? 0) && bool_decide (oob r8 = None).

Definition cert_scratch (t : tables) : bool :=
  let er := mask_of [0; 1] in
  (rd (decode_init_fast t er (zeros FIELD_SIZE) 2) 0 =? 1)
  && (rd (decode_init_fast t er (wr (zeros FIELD_SIZE) 5 1) 2) 0 =? 8106).

(** * Properties *)

(** ** Conversion to [unsigned short] *)

Lemma u16_mod v : u16 v = v `mod` 65536.
Proof. unfold u16. change 65535 with (Z.ones 16). by rewrite Z.land_ones. Qed.

Lemma u16_range v : 0 ≤ u16 v < 65536.
Proof. rewrite u16_mod. apply Z.mod_pos_bound. lia. Qed.

Lemma u16_small v : 0 ≤ v < 65536 → u16 v = v.
Proof. intros. rewrite u16_mod. by apply Z.mod_small. Qed.

Lemma u16_idemp v : u16 (u16 v) = u16 v.
Proof. apply u16_small, u16_range. Qed.

Lemma u16_lxor a b : u16 (Z.lxor a b) = Z.lxor (u16 a) (u16 b).
Proof.
  unfold u16. apply Z.bits_inj'. intros n Hn.
  rewrite !Z.land_spec, !Z.lxor_spec, !Z.land_spec.
  by destruct (Z.testbit a n), (Z.testbit b n), (Z.testbit 65535 n).
Qed.

(** XOR-ing the same value in twice restores a symbol, whatever the value. *)
Lemma u16_lxor_cancel a m : u16 (Z.lxor (u16 (Z.lxor a m)) m) = u16 a.
Proof.
  rewrite !u16_lxor, !u16_idemp.
  by rewrite Z.lxor_assoc, Z.lxor_nilpotent, Z.lxor_0_r.
Qed.

Lemma u16_lxor_cancel_l a m : u16 (Z.lxor (u16 (Z.lxor m a)) m) = u16 a.
Proof. rewrite (Z.lxor_comm m a). apply u16_lxor_cancel. Qed.

(** ** Loads and stores *)

Lemma inb_spec b i : inb b i = true ↔ 0 ≤ i < len b.
Proof. unfold inb. rewrite andb_true_iff, Z.leb_le, Z.ltb_lt. done. Qed.

Lemma inb_false b i : inb b i = false ↔ ¬ (0 ≤ i < len b).
Proof. rewrite <- inb_spec. by destruct (inb b i). Qed.

Lemma len_wr b i v : len (wr b i v) = len b.
Proof. unfold wr. by destruct (inb b i). Qed.

Lemma inb_wr b i v j : inb (wr b i v) j = inb b j.
Proof. unfold inb. by rewrite len_wr. Qed.

Lemma oob_wr_in b i v : inb b i = true → oob (wr b i v) = oob b.
Proof. unfold wr. by intros ->. Qed.

Lemma rd_out b i : inb b i = false → rd b i = 0.
Proof. unfold rd. by intros ->. Qed.

Lemma rd_wr_eq b i v : inb b i = true → rd (wr b i v) i = u16 v.
Proof.
  intros Hi. unfold rd. rewrite inb_wr, Hi. unfold wr. rewrite Hi. simpl.
  by rewrite lookup_insert_eq.
Qed.

Lemma rd_wr_ne b i v j : i ≠ j → rd (wr b i v) j = rd b j.
Proof.
  intros Hne. unfold rd. rewrite inb_wr. unfold wr.
  destruct (inb b i); simpl; [|done].
  by rewrite lookup_insert_ne.
Qed.

Lemma rd_wr_out b i v j : inb b i = false → rd (wr b i v) j = rd b j.
Proof. intros Hi. unfold rd. rewrite inb_wr. unfold wr. by rewrite Hi. Qed.

Lemma rd_wr b i v j :
  rd (wr b i v) j = if decide (i = j) then (if inb b i then u16 v else 0) else rd b j.
Proof.
  case_decide as Hij.
  - subst j. destruct (inb b i) eqn:Hi.
    + by apply rd_wr_eq.
    + rewrite rd_wr_out by done. by apply rd_out.
  - by apply rd_wr_ne.
Qed.

Lemma rd_zeros n i : rd (zeros n) i = 0.
Proof. unfold rd, zeros. simpl. rewrite lookup_empty. by destruct (inb _ _). Qed.

(** ** Arrays of symbols, and arrays with the same contents *)

Lemma symbols_zeros n : symbols (zeros n).
Proof. intros i. rewrite rd_zeros. lia. Qed.

Lemma symbols_wr b i v : symbols b → symbols (wr b i v).
Proof.
  intros Hb j. rewrite rd_wr. case_decide; [|apply Hb].
  destruct (inb b i); [apply u16_range|lia].
Qed.

Lemma symbols_u16 b i : symbols b → u16 (rd b i) = rd b i.
Proof. intros Hb. apply u16_small, Hb. Qed.

Lemma same_refl a : same a a.
Proof. done. Qed.

Lemma same_sym a b : same a b → same b a.
Proof. intros [? ?]. split; [done|]. intros i. by symmetry. Qed.

Lemma same_trans a b c : same a b → same b c → same a c.
Proof. intros [? Hab] [? Hbc]. split; [congruence|]. intros i. by rewrite Hab. Qed.

Lemma same_inb a b i : same a b → inb a i = inb b i.
Proof. intros [Hl _]. unfold inb. by rewrite Hl. Qed.

Lemma same_wr a b i v w : same a b → v = w → same (wr a i v) (wr b i w).
Proof.
  intros Hab ->. split; [rewrite !len_wr; apply Hab|].
  intros j. rewrite !rd_wr, (same_inb a b) by done.
  case_decide; [done|apply Hab].
Qed.

Lemma same_symbols a b : same a b → symbols a → symbols b.
Proof. intros [_ Hab] Ha i. rewrite <- Hab. apply Ha. Qed.

(** ** Folds *)

Lemma foldl_inv {A E} (P : A → Prop) (f : A → E → A) (l : list E) (a : A) :
  P a → (∀ a x, x ∈ l → P a → P (f a x)) → P (foldl f a l).
Proof.
  revert a. induction l as [|x l IH]; intros a Ha Hf; simpl; [done|].
  apply IH.
  - apply Hf; [left|done].
  - intros a' y Hy. apply Hf. by right.
Qed.

Lemma foldl_rel {A A' E} (R : A → A' → Prop) (f : A → E → A) (g : A' → E → A')
    (l : list E) (a : A) (a' : A') :
  R a a' → (∀ a a' x, x ∈ l → R a a' → R (f a x) (g a' x)) →
  R (foldl f a l) (foldl g a' l).
Proof.
  revert a a'. induction l as [|x l IH]; intros a a' Ha Hf; simpl; [done|].
  apply IH.
  - apply Hf; [left|done].
  - intros b b' y Hy. apply Hf. by right.
Qed.

Lemma foldl_ext_in {A E} (f g : A → E → A) (l : list E) (a : A) :
  (∀ a x, x ∈ l → f a x = g a x) → foldl f a l = foldl g a l.
Proof.
  intros Hfg. apply (foldl_rel eq); [done|]. intros b b' x Hx ->. by apply Hfg.
Qed.

Lemma elem_of_rev {A} (x : A) (l : list A) : x ∈ rev l ↔ x ∈ l.
Proof. rewrite !list_elem_of_In. symmetry. apply in_rev. Qed.

Lemma foldl_snoc {A E} (f : A → E → A) (l : list E) (x : E) (a : A) :
  foldl f a (l ++ [x]) = f (foldl f a l) x.
Proof. by rewrite foldl_app. Qed.

(** ** Index sequences of the loops *)

Lemma for_idx_cond fuel cond next a i :
  i ∈ for_idx fuel cond next a → cond i = true.
Proof.
  revert a. induction fuel as [|fuel IH]; intros a; simpl.
  - by intros ?%elem_of_nil.
  - destruct (cond a) eqn:Ha; [|by intros ?%elem_of_nil].
    intros [->|Hi]%elem_of_cons; [done|by eapply IH].
Qed.

(** More fuel than the bound changes nothing. *)
Lemma for_idx_fuel fuel extra cond next a (measure : Z → Z) :
  (∀ i, cond i = true → 0 ≤ measure (next i) < measure i) →
  measure a ≤ Z.of_nat fuel →
  for_idx (fuel + extra) cond next a = for_idx fuel cond next a.
Proof.
  intros Hm. revert a. induction fuel as [|fuel IH]; intros a Ha; simpl.
  - destruct extra as [|extra]; simpl; [done|].
    destruct (cond a) eqn:Hc; [|done]. specialize (Hm a Hc). lia.
  - destruct (cond a) eqn:Hc; [|done]. f_equal. apply IH.
    specialize (Hm a Hc). lia.
Qed.

Section up.
Context (b step : Z) (Hstep : 0 < step).

Lemma elem_of_up_aux fuel a i :
    i ∈ for_idx fuel (λ i, i <? b) (λ i, i + step) a →
    a ≤ i < b ∧ (step | i - a).
Proof.
    revert a. induction fuel as [|fuel IH]; intros a; simpl.
    - by intros ?%elem_of_nil.
    - destruct (a <? b) eqn:Ha; [|by intros ?%elem_of_nil].
      apply Z.ltb_lt in Ha.
      intros [->|Hi]%elem_of_cons.
      + split; [lia|]. rewrite Z.sub_diag. apply Z.divide_0_r.
      + apply IH in Hi as [? [k Hk]]. split; [lia|].
        exists (k + 1). lia.
Qed.

Lemma elem_of_up a i : i ∈ up a b step → a ≤ i < b ∧ (step | i - a).
Proof. apply elem_of_up_aux. Qed.

Lemma NoDup_up a : NoDup (up a b step).
Proof.
    unfold up. generalize (Z.to_nat (b - a)) as fuel. intros fuel.
    revert a. induction fuel as [|fuel IH]; intros a; simpl; [constructor|].
    destruct (a <? b); [|constructor].
    constructor; [|apply IH].
    intros Hin%elem_of_up_aux. lia.
Qed.

Lemma up_fuel a extra :
    for_idx (Z.to_nat (b - a) + extra) (λ i, i <? b) (λ i, i + step) a = up a b step.
Proof.
    apply (for_idx_fuel _ _ _ _ _ (λ i, Z.max 0 (b - i))); [|lia].
    intros i Hi%Z.ltb_lt. lia.
Qed.

Lemma up_cons a : a < b → up a b step = a :: up (a + step) b step.
Proof.
    intros Hab. unfold up at 1.
    destruct (Z.to_nat (b - a)) as [|fuel] eqn:Hf; [lia|]. simpl.
    assert ((a <? b) = true) as -> by by apply Z.ltb_lt.
    f_equal.
    replace fuel with (Z.to_nat (b - (a + step)) + (fuel - Z.to_nat (b - (a + step))))%nat
      by lia.
    apply up_fuel.
Qed.

Lemma up_nil a : b ≤ a → up a b step = [].
Proof.
    intros Hab. unfold up. destruct (Z.to_nat (b - a)); simpl; [done|].
    by assert ((a <? b) = false) as -> by by apply Z.ltb_ge.
Qed.

  (** The loop visits every index that the C loop visits. *)
Lemma up_complete a i : a ≤ i < b → (step | i - a) → i ∈ up a b step.
Proof.
    intros Hi [k Hk]. assert (0 ≤ k) as Hk0 by nia.
    revert a i Hi Hk. pattern k. apply natlike_ind; [| |done].
    - intros a i Hi Hk. assert (i = a) as -> by lia.
      rewrite up_cons by lia. left.
    - clear k Hk0. intros k Hk0 IH a i Hi Hk.
      rewrite up_cons by lia. right. apply IH; nia.
Qed.
End up.

Lemma up_1 a b : up a b 1 = seqZ a (b - a).
Proof.
  unfold up. remember (Z.to_nat (b - a)) as fuel eqn:Hf.
  revert a Hf. induction fuel as [|fuel IH]; intros a Hf; simpl.
  - by rewrite seqZ_nil by lia.
  - assert ((a <? b) = true) as -> by (apply Z.ltb_lt; lia).
    rewrite seqZ_cons by lia. f_equal.
    replace (Z.pred (b - a)) with (b - (a + 1)) by lia.
    apply IH. lia.
Qed.

Lemma elem_of_up_1 a b i : i ∈ up a b 1 ↔ a ≤ i < b.
Proof. rewrite up_1, elem_of_seqZ. lia. Qed.

(** ** Loops of stores *)

Lemma foldl_len (n : Z) {E} (f : buf → E → buf) (l : list E) (a : buf) :
  len a = n → (∀ a x, len a = n → len (f a x) = n) → len (foldl f a l) = n.
Proof. intros Ha Hf. apply (foldl_inv (λ a, len a = n)); auto. Qed.

Lemma foldl_symbols {E} (f : buf → E → buf) (l : list E) (a : buf) :
  symbols a → (∀ a x, symbols a → symbols (f a x)) → symbols (foldl f a l).
Proof. intros Ha Hf. apply (foldl_inv symbols); auto. Qed.

Ltac len_tac :=
  repeat first
    [ assumption
    | rewrite len_wr
    | apply foldl_len; [|intros ? ? ?]
    | match goal with |- len (if ?c then _ else _) = _ => destruct c end ].

Ltac symbols_tac :=
  repeat first
    [ assumption
    | apply symbols_wr
    | apply foldl_symbols; [|intros ? ? ?]
    | match goal with |- symbols (if ?c then _ else _) => destruct c end ].

(** A loop that stores once into each cell of a list of cells: a cell outside
    the list keeps its value, a cell of the list ends with the value that its
    own iteration stored. *)
Section store_loop.
Context (g : Z → buf → Z).

Local Abbreviation step := (λ (c : buf) (j : Z), wr c j (g j c)).

Lemma store_loop_len l c : len (foldl step c l) = len c.
Proof. apply foldl_len; [done|]. intros a x Ha. by rewrite len_wr. Qed.

Lemma store_loop_miss l c i : i ∉ l → rd (foldl step c l) i = rd c i.
Proof.
  revert c. induction l as [|j l IH]; intros c Hi; simpl; [done|].
  apply not_elem_of_cons in Hi as [Hij Hi].
  rewrite IH by done. by apply rd_wr_ne.
Qed.

Lemma store_loop_hit (Q : Z → Prop) l c i :
  NoDup l → i ∈ l → inb c i = true →
  (∀ c', Q (u16 (g i c'))) → Q (rd (foldl step c l) i).
Proof.
  intros Hl Hi Hin HQ. revert c Hin.
  induction Hl as [|j l Hj Hl IH]; intros c Hin; simpl.
  - by apply elem_of_nil in Hi.
  - apply elem_of_cons in Hi as [->|Hi].
    + rewrite store_loop_miss by done. rewrite rd_wr_eq by done.
      apply HQ.
    + apply IH; [done|]. by rewrite inb_wr.
Qed.
End store_loop.

(** ** The lengths of the arrays never change *)

Lemma len_memcpy dst doff src soff count :
  len (memcpy dst doff src soff count) = len dst.
Proof. unfold memcpy, for_up. by len_tac. Qed.

Lemma len_walsh data size : len (walsh data size) = len data.
Proof. unfold walsh, for_shl, for_up. by len_tac. Qed.

Lemma len_formal_derivative cos size : len (formal_derivative cos size) = len cos.
Proof. unfold formal_derivative, for_up. by len_tac. Qed.

Lemma len_IFLT t data off size index : len (IFLT t data off size index) = len data.
Proof. unfold IFLT, for_shl, for_up. by len_tac. Qed.

Lemma len_FLT t data off size index : len (FLT t data off size index) = len data.
Proof. unfold FLT, for_shr, for_up. by len_tac. Qed.

Lemma len_decode_scale t codeword erasure lw2 n :
  len (decode_scale t codeword erasure lw2 n) = len codeword.
Proof. unfold decode_scale, for_up. by len_tac. Qed.

Lemma len_decode_init t erasure lw2 n : len (decode_init t erasure lw2 n) = len lw2.
Proof.
  unfold decode_init, for_up. apply foldl_len.
  - rewrite len_walsh. apply foldl_len.
    + rewrite len_walsh. apply foldl_len; [done|]. intros. by rewrite len_wr.
    + intros. by rewrite len_wr.
  - intros a x Ha. destruct (negb _); [by rewrite len_wr|done].
Qed.

Lemma len_encodeL t data k codeword n :
  len (encodeL t data k codeword n) = len codeword.
Proof.
  unfold encodeL. rewrite len_memcpy. unfold for_up. apply foldl_len.
  - by rewrite len_IFLT, len_memcpy.
  - intros a x Ha. by rewrite len_FLT, len_memcpy.
Qed.

(** ** Symbols stay symbols *)

Lemma symbols_walsh data size : symbols data → symbols (walsh data size).
Proof. intros. unfold walsh, for_shl, for_up. by symbols_tac. Qed.

Lemma symbols_memcpy dst doff src soff count :
  symbols dst → symbols (memcpy dst doff src soff count).
Proof. intros. unfold memcpy, for_up. by symbols_tac. Qed.

Lemma symbols_IFLT t data off size index :
  symbols data → symbols (IFLT t data off size index).
Proof. intros. unfold IFLT, for_shl, for_up. by symbols_tac. Qed.

Lemma symbols_FLT t data off size index :
  symbols data → symbols (FLT t data off size index).
Proof. intros. unfold FLT, for_shr, for_up. by symbols_tac. Qed.

(** ** The transform and the decoder respect [same] *)

Lemma walsh_same a b size : same a b → same (walsh a size) (walsh b size).
Proof.
  intros Hab. unfold walsh, for_shl, for_up.
  apply (foldl_rel same); [done|]. intros a1 b1 d _ H1.
  apply (foldl_rel same); [done|]. intros a2 b2 j _ H2.
  apply (foldl_rel same); [done|]. intros a3 b3 i _ [Hl Hr].
  apply same_wr; [apply same_wr; [done|]|]; by rewrite !Hr.
Qed.

Lemma for_up_same x y z (f g : Z → buf → buf) a b :
  same a b → (∀ i a b, same a b → same (f i a) (g i b)) →
  same (for_up x y z f a) (for_up x y z g b).
Proof. intros Hab Hf. unfold for_up. apply (foldl_rel same); auto. Qed.

(** ** The fold reduction *)

Lemma fold_red_small x : 0 ≤ x < 65536 → fold_red x = x.
Proof.
  intros Hx. unfold fold_red, MODULO, FIELD_SIZE, FIELD_BITS.
  change (1 ≪ 16 - 1) with (Z.ones 16).
  rewrite Z.land_ones, Z.shiftr_div_pow2 by lia. change (2 ^ 16) with 65536.
  rewrite Z.mod_small, Z.div_small by lia. lia.
Qed.

Lemma fold_red_large x : 65536 ≤ x < 131072 → fold_red x = x - 65535.
Proof.
  intros Hx. unfold fold_red, MODULO, FIELD_SIZE, FIELD_BITS.
  change (1 ≪ 16 - 1) with (Z.ones 16).
  rewrite Z.land_ones, Z.shiftr_div_pow2 by lia. change (2 ^ 16) with 65536.
  assert (x / 65536 = 1) as Hq by (symmetry; apply (Z.div_unique x 65536 1 (x - 65536)); lia).
  rewrite Z.mod_eq, Hq by lia. lia.
Qed.

Lemma fold_red_range x : 0 ≤ x ≤ 2 * MODULO → 0 ≤ fold_red x ≤ MODULO.
Proof.
  unfold MODULO, FIELD_SIZE, FIELD_BITS. change (1 ≪ 16) with 65536. intros Hx.
  destruct (decide (x < 65536)).
  - rewrite fold_red_small; lia.
  - rewrite fold_red_large; lia.
Qed.

Lemma fold_red_congr x :
  0 ≤ x ≤ 2 * MODULO → fold_red x `mod` MODULO = x `mod` MODULO.
Proof.
  unfold MODULO, FIELD_SIZE, FIELD_BITS. change (1 ≪ 16 - 1) with 65535. intros Hx.
  destruct (decide (x < 65536)).
  - by rewrite fold_red_small by lia.
  - rewrite fold_red_large by lia.
    replace x with (x - 65535 + 1 * 65535) at 2 by lia.
    by rewrite Z.mod_add by lia.
Qed.

(** The reduction is the remainder, except at [MODULO] itself. *)
Lemma fold_red_mod x :
  0 ≤ x < 2 * MODULO → x ≠ MODULO → fold_red x = x `mod` MODULO.
Proof.
  unfold MODULO, FIELD_SIZE, FIELD_BITS. change (1 ≪ 16 - 1) with 65535.
  intros Hx Hne. destruct (decide (x < 65535)).
  - rewrite fold_red_small, Z.mod_small; lia.
  - rewrite fold_red_large by lia.
    apply (Z.mod_unique x 65535 1 (x - 65535)); lia.
Qed.

Lemma fold_red_MODULO : fold_red MODULO = MODULO.
Proof. reflexivity. Qed.

(** ** Powers of two and the stage loops *)

Lemma pows_S p : pows (S p) = pows p ++ [2 ^ Z.of_nat p].
Proof. unfold pows. by rewrite seq_S, fmap_app. Qed.

Lemma elem_of_pows p d : d ∈ pows p ↔ ∃ e : nat, (e < p)%nat ∧ d = 2 ^ Z.of_nat e.
Proof.
  unfold pows. rewrite list_elem_of_fmap. split.
  - intros (e & -> & He%elem_of_seq). exists e. split; [lia|done].
  - intros (e & He & ->). exists e. split; [done|]. apply elem_of_seq. lia.
Qed.

Lemma pow2_gt_lin (p : nat) : Z.of_nat p < 2 ^ Z.of_nat p.
Proof. apply Z.pow_gt_lin_r; lia. Qed.

Lemma shl_up_pow2 (p : nat) : shl_up 1 (2 ^ Z.of_nat p) = pows p.
Proof.
  unfold shl_up, pows.
  assert (∀ fuel e : nat, (e ≤ p)%nat → (p - e ≤ fuel)%nat →
    for_idx fuel (λ d, d <? 2 ^ Z.of_nat p) (λ d, d ≪ 1) (2 ^ Z.of_nat e) =
    (λ e : nat, 2 ^ Z.of_nat e) <$> seq e (p - e)) as Haux.
  { induction fuel as [|fuel IH]; intros e He Hf; simpl.
    - by replace (p - e)%nat with 0%nat by lia.
    - destruct (decide (e = p)) as [->|Hne].
      + rewrite Z.ltb_irrefl. by rewrite Nat.sub_diag.
      + assert ((2 ^ Z.of_nat e <? 2 ^ Z.of_nat p) = true) as ->.
        { apply Z.ltb_lt, Z.pow_lt_mono_r; lia. }
        replace (p - e)%nat with (S (p - S e)) by lia. simpl. f_equal.
        rewrite Z.shiftl_mul_pow2 by lia.
        replace (2 ^ Z.of_nat e * 2 ^ 1) with (2 ^ Z.of_nat (S e)).
        * apply IH; lia.
        * rewrite Nat2Z.inj_succ, Z.pow_succ_r by lia. lia. }
  specialize (Haux (Z.to_nat (2 ^ Z.of_nat p)) 0%nat).
  rewrite Nat.sub_0_r in Haux. apply Haux; [lia|].
  pose proof (pow2_gt_lin p). lia.
Qed.

Lemma shr_down_pow2 (p : nat) : shr_down (2 ^ Z.of_nat p ≫ 1) = rev (pows p).
Proof.
  assert (∀ q fuel : nat, (q < fuel)%nat →
    for_idx fuel (λ d, 0 <? d) (λ d, d ≫ 1) (2 ^ Z.of_nat q) = rev (pows (S q))) as Haux.
  { induction q as [|q IH]; intros fuel Hf.
    - destruct fuel as [|fuel]; [lia|]. simpl.
      change (1 ≫ 1) with 0. by destruct fuel.
    - destruct fuel as [|fuel]; [lia|].
      rewrite (pows_S (S q)), rev_app_distr. cbn [for_idx rev app].
      assert ((0 <? 2 ^ Z.of_nat (S q)) = true) as ->.
      { apply Z.ltb_lt, Z.pow_pos_nonneg; lia. }
      f_equal.
      rewrite Z.shiftr_div_pow2 by lia.
      replace (2 ^ Z.of_nat (S q) / 2 ^ 1) with (2 ^ Z.of_nat q).
      + apply IH. lia.
      + rewrite Nat2Z.inj_succ, Z.pow_succ_r by lia.
        change (2 ^ 1) with 2. by rewrite Z.mul_comm, Z.div_mul by lia. }
  destruct p as [|q]; [done|].
  rewrite Z.shiftr_div_pow2 by lia.
  replace (2 ^ Z.of_nat (S q) / 2 ^ 1) with (2 ^ Z.of_nat q).
  - unfold shr_down. apply Haux. pose proof (pow2_gt_lin q). lia.
  - rewrite Nat2Z.inj_succ, Z.pow_succ_r by lia.
    change (2 ^ 1) with 2. by rewrite Z.mul_comm, Z.div_mul by lia.
Qed.

(** The two remaining loop shapes also have fuel to spare. *)
Lemma shl_up_fuel a b extra :
  0 < a →
  for_idx (Z.to_nat b + extra) (λ d, d <? b) (λ d, d ≪ 1) a = shl_up a b.
Proof.
  intros Ha. unfold shl_up.
  assert (∀ fuel d, 0 < d → b - d ≤ Z.of_nat fuel →
    for_idx (fuel + extra) (λ d, d <? b) (λ d, d ≪ 1) d =
    for_idx fuel (λ d, d <? b) (λ d, d ≪ 1) d) as Haux.
  { induction fuel as [|fuel IH]; intros d Hd Hf; simpl.
    - destruct extra; simpl; [done|].
      by assert ((d <? b) = false) as -> by (apply Z.ltb_ge; lia).
    - destruct (d <? b) eqn:Hc; [|done]. f_equal.
      assert (d ≪ 1 = 2 * d) as Hs by (rewrite Z.shiftl_mul_pow2 by lia; lia).
      apply IH; lia. }
  apply Haux; lia.
Qed.

Lemma shr_down_fuel a extra :
  for_idx (Z.to_nat a + extra) (λ d, 0 <? d) (λ d, d ≫ 1) a = shr_down a.
Proof.
  unfold shr_down.
  apply (for_idx_fuel _ _ _ _ _ (λ d, Z.max 0 d)); [|lia].
  intros d Hd%Z.ltb_lt.
  assert (d ≫ 1 = d / 2) as -> by by rewrite Z.shiftr_div_pow2 by lia.
  pose proof (Z.div_lt d 2). pose proof (Z.div_pos d 2). lia.
Qed.

(** ** Loops of butterflies *)

(** A loop whose iteration [i] stores into cell [w i] a value computed from
    that cell and from cell [r i], where no cell that is read is a cell that
    another iteration stores into. *)
Section zip_loop.
Context (w r : Z → Z) (h : Z → Z → Z).

Local Abbreviation step := (λ (c : buf) (i : Z), wr c (w i) (h (rd c (w i)) (rd c (r i)))).

Lemma zip_loop_len l c : len (foldl step c l) = len c.
Proof. apply foldl_len; [done|]. intros a x Ha. by rewrite len_wr. Qed.

Lemma zip_loop_oob l c :
  (∀ i, i ∈ l → inb c (w i) = true) → oob (foldl step c l) = oob c.
Proof.
  revert c. induction l as [|j l IH]; intros c Hin; simpl; [done|].
  rewrite IH.
  - apply oob_wr_in, Hin. left.
  - intros i Hi. rewrite inb_wr. apply Hin. by right.
Qed.

Lemma zip_loop_miss l c p :
  (∀ i, i ∈ l → p ≠ w i) → rd (foldl step c l) p = rd c p.
Proof.
  revert c. induction l as [|j l IH]; intros c Hp; simpl; [done|].
  rewrite IH.
  - apply rd_wr_ne. intros Heq. by apply (Hp j); [left|].
  - intros i Hi. apply Hp. by right.
Qed.

Lemma zip_loop_hit l c i :
  NoDup l →
  (∀ i i', i ∈ l → i' ∈ l → w i = w i' → i = i') →
  (∀ i i', i ∈ l → i' ∈ l → r i ≠ w i') →
  i ∈ l → inb c (w i) = true →
  rd (foldl step c l) (w i) = u16 (h (rd c (w i)) (rd c (r i))).
Proof.
  intros Hl. revert c. induction Hl as [|j l Hj Hl IH]; intros c Hw Hr Hi Hin; simpl.
  - by apply elem_of_nil in Hi.
  - apply elem_of_cons in Hi as [->|Hi].
    + rewrite zip_loop_miss.
      * by apply rd_wr_eq.
      * intros i' Hi' Heq. apply Hw in Heq; [|left|by right]. by subst.
    + rewrite IH; [| |  |done|by rewrite inb_wr].
      * f_equal. f_equal.
        -- apply rd_wr_ne. intros Heq. apply Hw in Heq; [|left|by right]. by subst.
        -- apply rd_wr_ne. intros Heq. symmetry in Heq. revert Heq. apply Hr; [by right|left].
      * intros i1 i2 H1 H2. apply Hw; by right.
      * intros i1 i2 H1 H2. apply Hr; by right.
Qed.
End zip_loop.

(** ** One block of a stage of the transform pair *)

Lemma IFLT_stages t data off size index :
  IFLT t data off size index
  = foldl (λ data d, stageI t off size index d data) data (shl_up 1 size).
Proof. reflexivity. Qed.

Lemma FLT_stages t data off size index :
  FLT t data off size index
  = foldl (λ data d, stageF t off size index d data) data (shr_down (size ≫ 1)).
Proof. reflexivity. Qed.

Lemma pairs_of_refl base d x : pairs_of base d (λ lo hi, (lo, hi)) x x.
Proof. repeat split; done. Qed.

Lemma pairs_of_comp base d pm qm x y z :
  pairs_of base d pm x y → pairs_of base d qm y z →
  pairs_of base d (λ lo hi, qm (pm lo hi).1 (pm lo hi).2) x z.
Proof.
  intros (Hl1 & Ho1 & Hp1 & Hq1) (Hl2 & Ho2 & Hp2 & Hq2).
  split; [congruence|]. split; [congruence|]. split.
  - intros k Hk. destruct (Hp1 k Hk) as [<- <-]. by apply Hp2.
  - intros p Hp. rewrite Hq2, Hq1; done.
Qed.

Lemma pairs_of_ext base d pm qm x y :
  (∀ lo hi, pm lo hi = qm lo hi) → pairs_of base d pm x y → pairs_of base d qm x y.
Proof.
  intros Hx (Hl & Ho & Hp & Hq). repeat split; [done|done| | |done].
  - rewrite <- Hx. by apply Hp.
  - rewrite <- Hx. by apply Hp.
Qed.

Section block.
Context (t : tables) (off index d j : Z) (x : buf).
Context (Hd : 0 < d) (Hlo : 0 ≤ off + j - d) (Hhi : off + j + d ≤ len x).

Lemma xor_hi_pairs : pairs_of (off + j - d) d phi_xor x (xor_hi off d j x).
Proof.
  unfold xor_hi, for_up.
  split; [apply (zip_loop_len (λ i, off + (i + d)) (λ i, off + i) Z.lxor)|].
  split.
  { apply (zip_loop_oob (λ i, off + (i + d)) (λ i, off + i) Z.lxor).
    intros i Hi%elem_of_up_1. apply inb_spec. lia. }
  split.
  - intros k Hk. unfold phi_xor. simpl. split.
    + apply (zip_loop_miss (λ i, off + (i + d)) (λ i, off + i) Z.lxor).
      intros i Hi%elem_of_up_1. lia.
    + replace (off + j - d + d + k) with (off + (j - d + k + d)) by lia.
      rewrite (zip_loop_hit (λ i, off + (i + d)) (λ i, off + i) Z.lxor).
      * do 3 f_equal; lia.
      * apply NoDup_up. lia.
      * intros; lia.
      * intros i i' Hi%elem_of_up_1 Hi'%elem_of_up_1. lia.
      * apply elem_of_up_1. lia.
      * apply inb_spec. lia.
  - intros p Hp.
    apply (zip_loop_miss (λ i, off + (i + d)) (λ i, off + i) Z.lxor).
    intros i Hi%elem_of_up_1. lia.
Qed.

Lemma mul_lo_pairs skew :
  pairs_of (off + j - d) d (λ lo hi, (u16 (Z.lxor lo (mulE t hi skew)), hi))
           x (mul_lo t off d j skew x).
Proof.
  unfold mul_lo, for_up.
  pose (h := λ a b, Z.lxor a (mulE t b skew)).
  split; [apply (zip_loop_len (λ i, off + i) (λ i, off + (i + d)) h)|].
  split.
  { apply (zip_loop_oob (λ i, off + i) (λ i, off + (i + d)) h).
    intros i Hi%elem_of_up_1. apply inb_spec. lia. }
  split.
  - intros k Hk. simpl. split.
    + replace (off + j - d + k) with (off + (j - d + k)) by lia.
      rewrite (zip_loop_hit (λ i, off + i) (λ i, off + (i + d)) h).
      * unfold h. do 4 f_equal; lia.
      * apply NoDup_up. lia.
      * intros; lia.
      * intros i i' Hi%elem_of_up_1 Hi'%elem_of_up_1. lia.
      * apply elem_of_up_1. lia.
      * apply inb_spec. lia.
    + apply (zip_loop_miss (λ i, off + i) (λ i, off + (i + d)) h).
      intros i Hi%elem_of_up_1. lia.
  - intros p Hp.
    apply (zip_loop_miss (λ i, off + i) (λ i, off + (i + d)) h).
    intros i Hi%elem_of_up_1. lia.
Qed.
End block.

Lemma phi_mul_pairs t off d j skew x :
  0 < d → 0 ≤ off + j - d → off + j + d ≤ len x →
  pairs_of (off + j - d) d (phi_mul t skew) x
    (if negb (skew =? MODULO) then mul_lo t off d j skew x else x).
Proof.
  intros Hd Hlo Hhi. unfold phi_mul. destruct (negb (skew =? MODULO)).
  - by apply mul_lo_pairs.
  - apply pairs_of_refl.
Qed.

Lemma blockI_pairs t off index d j x :
  0 < d → 0 ≤ off + j - d → off + j + d ≤ len x →
  pairs_of (off + j - d) d (phiI t (rd (skewVec t) (j + index - 1))) x
    (blockI t off index d j x).
Proof.
  intros Hd Hlo Hhi. unfold blockI, phiI. cbv zeta.
  eapply pairs_of_comp; [by apply xor_hi_pairs|].
  apply phi_mul_pairs; [done|done|].
  by rewrite (proj1 (xor_hi_pairs off d j x Hd Hlo Hhi)).
Qed.

Lemma blockF_pairs t off index d j x :
  0 < d → 0 ≤ off + j - d → off + j + d ≤ len x →
  pairs_of (off + j - d) d (phiF t (rd (skewVec t) (j + index - 1))) x
    (blockF t off index d j x).
Proof.
  intros Hd Hlo Hhi. unfold blockF, phiF. cbv zeta.
  eapply pairs_of_comp; [by apply phi_mul_pairs|].
  apply xor_hi_pairs; [done|done|].
  by rewrite (proj1 (phi_mul_pairs t off d j _ x Hd Hlo Hhi)).
Qed.

(** On symbols the two block maps undo each other. *)
Lemma phiI_phiF t skew lo hi :
  0 ≤ lo < 65536 → 0 ≤ hi < 65536 →
  phiI t skew (phiF t skew lo hi).1 (phiF t skew lo hi).2 = (lo, hi).
Proof.
  intros Hlo Hhi. unfold phiI, phiF, phi_xor, phi_mul.
  destruct (negb (skew =? MODULO)); simpl.
  - rewrite u16_lxor_cancel, (u16_small hi) by done.
    by rewrite u16_lxor_cancel, (u16_small lo) by done.
  - by rewrite u16_lxor_cancel, (u16_small hi) by done.
Qed.

Lemma phiF_phiI t skew lo hi :
  0 ≤ lo < 65536 → 0 ≤ hi < 65536 →
  phiF t skew (phiI t skew lo hi).1 (phiI t skew lo hi).2 = (lo, hi).
Proof.
  intros Hlo Hhi. unfold phiI, phiF, phi_xor, phi_mul.
  destruct (negb (skew =? MODULO)); simpl.
  - rewrite u16_lxor_cancel, (u16_small lo) by done.
    by rewrite u16_lxor_cancel, (u16_small hi) by done.
  - by rewrite u16_lxor_cancel, (u16_small hi) by done.
Qed.

(** ** One stage: blocks that do not overlap *)

Section stage.
Context (d n : Z) (base : Z → Z) (pm : Z → Z → Z → Z * Z) (op : Z → buf → buf).

Local Abbreviation run := (λ js x, foldl (λ x j, op j x) x js).

Lemma stage_len js x : block_ops d n base pm op js → len x = n → len (run js x) = n.
Proof.
  intros Hop Hx. apply foldl_inv; [done|].
  intros a j Hj Ha. by rewrite (proj1 (Hop j a Hj Ha)).
Qed.

Lemma stage_oob js x : block_ops d n base pm op js → len x = n → oob (run js x) = oob x.
Proof.
  revert x. induction js as [|j js IH]; intros x Hop Hx; simpl; [done|].
  destruct (Hop j x) as (Hl & Ho & _); [left|done|].
  rewrite IH; [done| |congruence].
  intros j' x' Hj'. apply Hop. by right.
Qed.

Lemma stage_out js x p :
  block_ops d n base pm op js → len x = n →
  (∀ j, j ∈ js → ¬ (base j ≤ p < base j + 2 * d)) →
  rd (run js x) p = rd x p.
Proof.
  revert x. induction js as [|j js IH]; intros x Hop Hx Hp; simpl; [done|].
  destruct (Hop j x) as (Hl & _ & _ & Hq); [left|done|].
  rewrite IH.
  - apply Hq, Hp. left.
  - intros j' x' Hj'. apply Hop. by right.
  - congruence.
  - intros j' Hj'. apply Hp. by right.
Qed.

Lemma stage_in js x j k :
  NoDup js → apart d base js → block_ops d n base pm op js → len x = n → j ∈ js → 0 ≤ k < d →
  rd (run js x) (base j + k)
    = (pm j (rd x (base j + k)) (rd x (base j + d + k))).1 ∧
  rd (run js x) (base j + d + k)
    = (pm j (rd x (base j + k)) (rd x (base j + d + k))).2.
Proof.
  intros Hnd. revert x. induction Hnd as [|a js Ha Hnd IH];
    intros x Hap Hop Hx Hj Hk; simpl.
  - by apply elem_of_nil in Hj.
  - destruct (Hop a x) as (Hl & _ & Hp & Hq); [left|done|].
    assert (block_ops d n base pm op js) as Hop'.
    { intros j' x' Hj'. apply Hop. by right. }
    assert (apart d base js) as Hap'.
    { intros j1 j2 H1 H2. apply Hap; by right. }
    apply elem_of_cons in Hj as [->|Hj].
    + rewrite !stage_out; [by apply Hp|done|congruence| |done|congruence|].
      * intros j' Hj'. destruct (Hap a j') as [?|?]; [left|by right| |lia|lia].
        intros ->. done.
      * intros j' Hj'. destruct (Hap a j') as [?|?]; [left|by right| |lia|lia].
        intros ->. done.
    + assert (j ≠ a) as Hne by (intros ->; done).
      destruct (IH (op a x)) as [H1 H2]; [done|done|congruence|done|done|].
      rewrite H1, H2.
      assert (rd (op a x) (base j + k) = rd x (base j + k)) as ->.
      { apply Hq. destruct (Hap j a) as [?|?]; [by right|left|done|lia|lia]. }
      assert (rd (op a x) (base j + d + k) = rd x (base j + d + k)) as ->.
      { apply Hq. destruct (Hap j a) as [?|?]; [by right|left|done|lia|lia]. }
      done.
Qed.
End stage.

(** Two stages over the same blocks whose block maps undo each other. *)
Lemma stage_undo d n base (mapF mapI : Z → Z → Z → Z * Z) (opF opI : Z → buf → buf) js x :
  0 < d → NoDup js → apart d base js →
  block_ops d n base mapF opF js → block_ops d n base mapI opI js →
  (∀ j lo hi, 0 ≤ lo < 65536 → 0 ≤ hi < 65536 →
     mapI j (mapF j lo hi).1 (mapF j lo hi).2 = (lo, hi)) →
  symbols x → len x = n →
  same (foldl (λ x j, opI j x) (foldl (λ x j, opF j x) x js) js) x ∧
  oob (foldl (λ x j, opI j x) (foldl (λ x j, opF j x) x js) js) = oob x.
Proof.
  intros Hd Hnd Hap HF HI Hinv Hsym Hx.
  pose proof (stage_len d n base mapF opF js x HF Hx) as HlF. cbv beta in HlF.
  set (y := foldl (λ x j, opF j x) x js) in *.
  split; [split|].
  - rewrite (stage_len d n base mapI opI); done.
  - intros p.
    destruct (decide (Exists (λ j, base j ≤ p < base j + 2 * d) js)) as [Hex|Hex].
    + apply Exists_exists in Hex as (j & Hj & Hp).
      destruct (decide (p < base j + d)) as [Hlt|Hge].
      * replace p with (base j + (p - base j)) by lia.
        destruct (stage_in d n base mapI opI js y j (p - base j)) as [-> _];
          [done..|lia|].
        destruct (stage_in d n base mapF opF js x j (p - base j)) as [H1 H2];
          [done..|lia|].
        fold y in H1, H2. rewrite H1, H2.
        by rewrite Hinv by apply Hsym.
      * replace p with (base j + d + (p - base j - d)) by lia.
        destruct (stage_in d n base mapI opI js y j (p - base j - d)) as [_ ->];
          [done..|lia|].
        destruct (stage_in d n base mapF opF js x j (p - base j - d)) as [H1 H2];
          [done..|lia|].
        fold y in H1, H2. rewrite H1, H2.
        by rewrite Hinv by apply Hsym.
    + rewrite (stage_out d n base mapI opI); [|done|done|].
      * unfold y. rewrite (stage_out d n base mapF opF); [done|done|done|].
        intros j Hj Hp. apply Hex, Exists_exists. eauto.
      * intros j Hj Hp. apply Hex, Exists_exists. eauto.
  - rewrite (stage_oob d n base mapI opI); [|done|done].
    unfold y. by rewrite (stage_oob d n base mapF opF).
Qed.

(** ** Arrays that agree on contents and on the out-of-bounds record *)

Lemma alike_refl a : alike a a.
Proof. done. Qed.

Lemma alike_trans a b c : alike a b → alike b c → alike a c.
Proof. intros [? ?] [? ?]. split; [by eapply same_trans|congruence]. Qed.

Lemma alike_wr a b i v w : alike a b → v = w → alike (wr a i v) (wr b i w).
Proof.
  intros [Hs Ho] ->. split; [by apply same_wr|].
  unfold wr. rewrite (same_inb a b) by done.
  destruct (inb b i); simpl; [done|]. by rewrite Ho.
Qed.

Lemma for_up_alike x y z (f g : Z → buf → buf) a b :
  alike a b → (∀ i a b, alike a b → alike (f i a) (g i b)) →
  alike (for_up x y z f a) (for_up x y z g b).
Proof. intros Hab Hf. unfold for_up. apply (foldl_rel alike); auto. Qed.

Lemma xor_hi_alike off d j a b : alike a b → alike (xor_hi off d j a) (xor_hi off d j b).
Proof.
  intros Hab. unfold xor_hi. apply for_up_alike; [done|].
  intros i a' b' Hab'. apply alike_wr; [done|].
  destruct Hab' as [[_ Hr] _]. by rewrite !Hr.
Qed.

Lemma mul_lo_alike t off d j skew a b :
  alike a b → alike (mul_lo t off d j skew a) (mul_lo t off d j skew b).
Proof.
  intros Hab. unfold mul_lo. apply for_up_alike; [done|].
  intros i a' b' Hab'. apply alike_wr; [done|].
  destruct Hab' as [[_ Hr] _]. by rewrite !Hr.
Qed.

Lemma stageI_alike t off size index d a b :
  alike a b → alike (stageI t off size index d a) (stageI t off size index d b).
Proof.
  intros Hab. unfold stageI. apply for_up_alike; [done|].
  intros j a' b' Hab'. unfold blockI. cbv zeta.
  destruct (negb _); [apply mul_lo_alike|]; by apply xor_hi_alike.
Qed.

Lemma stageF_alike t off size index d a b :
  alike a b → alike (stageF t off size index d a) (stageF t off size index d b).
Proof.
  intros Hab. unfold stageF. apply for_up_alike; [done|].
  intros j a' b' Hab'. unfold blockF. cbv zeta. apply xor_hi_alike.
  destruct (negb _); [by apply mul_lo_alike|done].
Qed.

(** ** Stages that undo each other, one after the other *)

Lemma telescope (R : buf → buf → Prop) (P : buf → Prop) (F G : Z → buf → buf) ds x :
  (∀ a, R a a) → (∀ a b c, R a b → R b c → R a c) →
  (∀ d a, d ∈ ds → P a → P (F d a)) →
  (∀ d a, d ∈ ds → P a → R (G d (F d a)) a) →
  (∀ d a b, R a b → R (G d a) (G d b)) →
  P x →
  R (foldl (λ a d, G d a) (foldl (λ a d, F d a) x (rev ds)) ds) x.
Proof.
  intros Hrefl Htrans. induction ds as [|d ds IH]; intros HP HGF HG Hx; simpl.
  - apply Hrefl.
  - rewrite foldl_app. simpl.
    set (y := foldl (λ a d, F d a) x (rev ds)).
    assert (P y) as Hy.
    { apply foldl_inv; [done|]. intros a d' Hd' Ha. apply HP; [|done].
      right. apply (proj1 (elem_of_rev d' ds)), Hd'. }
    apply Htrans with (foldl (λ a d, G d a) y ds).
    + apply (foldl_rel R); [|by auto]. apply HGF; [left|done].
    + apply IH; [| |done|done].
      * intros d' a Hd'. apply HP. by right.
      * intros d' a Hd'. apply HGF. by right.
Qed.

(** ** The blocks of a stage of size [2 ^ e] in a transform of size [2 ^ p] *)

Lemma shiftl_1 d : d ≪ 1 = 2 * d.
Proof. rewrite Z.shiftl_mul_pow2 by lia. lia. Qed.

Lemma stage_blocks (p e : nat) off n j :
  (e < p)%nat → 0 ≤ off → off + 2 ^ Z.of_nat p ≤ n →
  j ∈ up (2 ^ Z.of_nat e) (2 ^ Z.of_nat p) (2 ^ Z.of_nat e ≪ 1) →
  0 ≤ off + j - 2 ^ Z.of_nat e ∧ off + j + 2 ^ Z.of_nat e ≤ n.
Proof.
  intros He Hoff Hn. rewrite shiftl_1.
  assert (0 < 2 ^ Z.of_nat e) as Hd by (apply Z.pow_pos_nonneg; lia).
  intros [Hj [k Hk]]%elem_of_up; [|lia].
  assert (2 ^ Z.of_nat p = 2 ^ Z.of_nat (p - S e) * (2 * 2 ^ Z.of_nat e)) as Hp.
  { rewrite <- Z.pow_succ_r, <- Z.pow_add_r by lia. f_equal. lia. }
  assert (0 < 2 ^ Z.of_nat (p - S e)) as Hc by (apply Z.pow_pos_nonneg; lia).
  split; [lia|].
  assert (k < 2 ^ Z.of_nat (p - S e)) by nia.
  nia.
Qed.

Lemma stage_apart (e : nat) off b :
  apart (2 ^ Z.of_nat e) (λ j, off + j - 2 ^ Z.of_nat e)
        (up (2 ^ Z.of_nat e) b (2 ^ Z.of_nat e ≪ 1)).
Proof.
  assert (0 < 2 ^ Z.of_nat e) as Hd by (apply Z.pow_pos_nonneg; lia).
  rewrite shiftl_1.
  intros j j' [Hj [k Hk]]%elem_of_up [Hj' [k' Hk']]%elem_of_up Hne; [|lia..].
  assert (k ≠ k') as Hkk by (intros ->; lia).
  destruct (decide (k < k')); [left|right].
  - assert (k + 1 ≤ k') by lia. nia.
  - assert (k' + 1 ≤ k) by lia. nia.
Qed.

Section transform_pair.
Context (t : tables) (p : nat) (off index : Z) (x : buf).
Context (Hoff : 0 ≤ off) (Hlen : off + 2 ^ Z.of_nat p ≤ len x).

Local Abbreviation size := (2 ^ Z.of_nat p).
Local Abbreviation good := (λ a : buf, symbols a ∧ len a = len x).

Lemma stageI_ops (e : nat) :
  (e < p)%nat →
  block_ops (2 ^ Z.of_nat e) (len x) (λ j, off + j - 2 ^ Z.of_nat e)
    (λ j, phiI t (rd (skewVec t) (j + index - 1)))
    (blockI t off index (2 ^ Z.of_nat e))
    (up (2 ^ Z.of_nat e) size (2 ^ Z.of_nat e ≪ 1)).
Proof.
  intros He j a Hj Ha.
  destruct (stage_blocks p e off (len x) j) as [? ?]; [done..|].
  apply blockI_pairs; [apply Z.pow_pos_nonneg; lia|done|lia].
Qed.

Lemma stageF_ops (e : nat) :
  (e < p)%nat →
  block_ops (2 ^ Z.of_nat e) (len x) (λ j, off + j - 2 ^ Z.of_nat e)
    (λ j, phiF t (rd (skewVec t) (j + index - 1)))
    (blockF t off index (2 ^ Z.of_nat e))
    (up (2 ^ Z.of_nat e) size (2 ^ Z.of_nat e ≪ 1)).
Proof.
  intros He j a Hj Ha.
  destruct (stage_blocks p e off (len x) j) as [? ?]; [done..|].
  apply blockF_pairs; [apply Z.pow_pos_nonneg; lia|done|lia].
Qed.

Lemma good_stageI d a : good a → good (stageI t off size index d a).
Proof.
  intros [Hs Hl]. split.
  - unfold stageI, blockI, xor_hi, mul_lo, for_up. by symbols_tac.
  - unfold stageI, blockI, xor_hi, mul_lo, for_up. by len_tac.
Qed.

Lemma good_stageF d a : good a → good (stageF t off size index d a).
Proof.
  intros [Hs Hl]. split.
  - unfold stageF, blockF, xor_hi, mul_lo, for_up. by symbols_tac.
  - unfold stageF, blockF, xor_hi, mul_lo, for_up. by len_tac.
Qed.

Lemma stageI_stageF d a :
  d ∈ pows p → good a →
  alike (stageI t off size index d (stageF t off size index d a)) a.
Proof.
  intros (e & He & ->)%elem_of_pows [Hs Hl].
  apply (stage_undo (2 ^ Z.of_nat e) (len x) (λ j, off + j - 2 ^ Z.of_nat e)
           (λ j, phiF t (rd (skewVec t) (j + index - 1)))
           (λ j, phiI t (rd (skewVec t) (j + index - 1)))
           (blockF t off index (2 ^ Z.of_nat e))
           (blockI t off index (2 ^ Z.of_nat e))).
  - apply Z.pow_pos_nonneg; lia.
  - apply NoDup_up. rewrite shiftl_1. assert (0 < 2 ^ Z.of_nat e); [|lia].
    apply Z.pow_pos_nonneg; lia.
  - apply stage_apart.
  - by apply stageF_ops.
  - by apply stageI_ops.
  - intros. by apply phiI_phiF.
  - done.
  - done.
Qed.

Lemma stageF_stageI d a :
  d ∈ pows p → good a →
  alike (stageF t off size index d (stageI t off size index d a)) a.
Proof.
  intros (e & He & ->)%elem_of_pows [Hs Hl].
  apply (stage_undo (2 ^ Z.of_nat e) (len x) (λ j, off + j - 2 ^ Z.of_nat e)
           (λ j, phiI t (rd (skewVec t) (j + index - 1)))
           (λ j, phiF t (rd (skewVec t) (j + index - 1)))
           (blockI t off index (2 ^ Z.of_nat e))
           (blockF t off index (2 ^ Z.of_nat e))).
  - apply Z.pow_pos_nonneg; lia.
  - apply NoDup_up. rewrite shiftl_1. assert (0 < 2 ^ Z.of_nat e); [|lia].
    apply Z.pow_pos_nonneg; lia.
  - apply stage_apart.
  - by apply stageI_ops.
  - by apply stageF_ops.
  - intros. by apply phiF_phiI.
  - done.
  - done.
Qed.

Lemma IFLT_FLT :
  symbols x → alike (IFLT t (FLT t x off size index) off size index) x.
Proof.
  intros Hs. rewrite IFLT_stages, FLT_stages, shl_up_pow2, shr_down_pow2.
  apply (telescope alike good
           (stageF t off size index) (stageI t off size index)).
  - apply alike_refl.
  - apply alike_trans.
  - intros d a _. apply good_stageF.
  - apply stageI_stageF.
  - intros d a b. apply stageI_alike.
  - done.
Qed.

Lemma FLT_IFLT :
  symbols x → alike (FLT t (IFLT t x off size index) off size index) x.
Proof.
  intros Hs. rewrite IFLT_stages, FLT_stages, shl_up_pow2, shr_down_pow2.
  assert (pows p = rev (rev (pows p))) as Hrev by by rewrite rev_involutive.
  rewrite Hrev at 1. clear Hrev.
  apply (telescope alike good
           (stageI t off size index) (stageF t off size index)).
  - apply alike_refl.
  - apply alike_trans.
  - intros d a _. apply good_stageI.
  - intros d a Hd. apply stageF_stageI. apply (proj1 (elem_of_rev d (pows p))), Hd.
  - intros d a b. apply stageF_alike.
  - done.
Qed.
End transform_pair.

(** ** The transform on machine integers simulates [walsh] *)

Lemma sync_id l : Fast.sync l = l.
Proof. unfold Fast.sync. by destruct (_ =? _)%uint63. Qed.

Lemma settle_id b : settle b = b.
Proof. unfold settle. by destruct (_ =? _)%uint63. Qed.

Lemma wB_eq : wB = 9223372036854775808.
Proof. reflexivity. Qed.

Lemma to_Z_of_Z_small z : 0 ≤ z < 9223372036854775808 → to_Z (of_Z z) = z.
Proof. intros Hz. rewrite of_Z_spec, wB_eq. by apply Z.mod_small. Qed.

Lemma to_Z_add_small (a b : int) :
  to_Z a + to_Z b < wB → to_Z (a + b)%uint63 = to_Z a + to_Z b.
Proof.
  intros H. rewrite add_spec. apply Z.mod_small.
  pose proof (to_Z_bounded a). pose proof (to_Z_bounded b). lia.
Qed.

Lemma fast_fold_red (v : int) :
  to_Z v < 4611686018427387904 → to_Z (Fast.fold_red v) = fold_red (to_Z v).
Proof.
  intros Hv. pose proof (to_Z_bounded v) as Hb. unfold Fast.fold_red, fold_red.
  assert (to_Z (v land 65535)%uint63 = Z.land (to_Z v) MODULO) as H1 by apply land_spec'.
  assert (to_Z (v >> 16)%uint63 = to_Z v ≫ FIELD_BITS) as H2.
  { rewrite lsr_spec. unfold FIELD_BITS. by rewrite Z.shiftr_div_pow2 by lia. }
  rewrite to_Z_add_small; [by rewrite H1, H2|].
  rewrite H1, H2. unfold MODULO, FIELD_SIZE, FIELD_BITS.
  change (1 ≪ 16 - 1) with (Z.ones 16).
  rewrite Z.land_ones, Z.shiftr_div_pow2 by lia. rewrite wB_eq.
  pose proof (Z.mod_pos_bound (to_Z v) (2 ^ 16)).
  assert (to_Z v / 2 ^ 16 ≤ to_Z v) by (apply Z.div_le_upper_bound; lia).
  lia.
Qed.

Lemma to_Z_bsum (a b : int) :
  to_Z a < 65536 → to_Z b < 65536 →
  to_Z (Fast.bsum a b) = u16 (fold_red (to_Z a + to_Z b)).
Proof.
  intros Ha Hb. pose proof (to_Z_bounded a). pose proof (to_Z_bounded b).
  unfold Fast.bsum. rewrite land_spec'. change (to_Z 65535) with 65535.
  unfold u16. f_equal.
  rewrite fast_fold_red; rewrite to_Z_add_small; rewrite ?wB_eq; lia.
Qed.

Lemma to_Z_bdiff (a b : int) :
  to_Z a < 65536 → to_Z b < 65536 →
  to_Z (Fast.bdiff a b) = u16 (fold_red (to_Z a + MODULO - to_Z b)).
Proof.
  intros Ha Hb. pose proof (to_Z_bounded a). pose proof (to_Z_bounded b).
  unfold Fast.bdiff. rewrite land_spec'. change (to_Z 65535) with 65535.
  unfold u16. f_equal.
  assert (to_Z (a + 65535 - b)%uint63 = to_Z a + MODULO - to_Z b) as Ht.
  { rewrite sub_spec, to_Z_add_small; change (to_Z 65535) with 65535;
      rewrite ?wB_eq; [|lia].
    rewrite Z.mod_small by lia. done. }
  rewrite fast_fold_red; [by rewrite Ht|].
  rewrite Ht. unfold MODULO, FIELD_SIZE, FIELD_BITS.
  change (1 ≪ 16 - 1) with 65535. lia.
Qed.

(** ** The butterflies of [walsh]

    One iteration stores into the cells [i] and [i + d] values computed from
    these two cells. *)
Section pair_loop.
Context (d : Z) (f1 f2 : Z → Z → Z).

Local Abbreviation pstep :=
  (λ (x : buf) (i : Z),
     wr (wr x i (f1 (rd x i) (rd x (i + d)))) (i + d) (f2 (rd x i) (rd x (i + d)))).

Lemma pair_loop_len l x : len (foldl pstep x l) = len x.
Proof. apply foldl_len; [done|]. intros a i Ha. by rewrite !len_wr. Qed.

Lemma pair_loop_oob l x :
  (∀ i, i ∈ l → inb x i = true ∧ inb x (i + d) = true) →
  oob (foldl pstep x l) = oob x.
Proof.
  revert x. induction l as [|j l IH]; intros x Hin; simpl; [done|].
  destruct (Hin j) as [H1 H2]; [left|].
  rewrite IH.
  - rewrite oob_wr_in by by rewrite inb_wr. by apply oob_wr_in.
  - intros i Hi. rewrite !inb_wr. apply Hin. by right.
Qed.

Lemma pair_loop_miss l x q :
  (∀ i, i ∈ l → q ≠ i ∧ q ≠ i + d) → rd (foldl pstep x l) q = rd x q.
Proof.
  revert x. induction l as [|j l IH]; intros x Hq; simpl; [done|].
  destruct (Hq j) as [H1 H2]; [left|].
  rewrite IH.
  - rewrite !rd_wr_ne; done.
  - intros i Hi. apply Hq. by right.
Qed.

Lemma pair_loop_hit l x i :
  NoDup l → (∀ i i', i ∈ l → i' ∈ l → i ≠ i' + d) →
  i ∈ l → inb x i = true → inb x (i + d) = true →
  rd (foldl pstep x l) i = u16 (f1 (rd x i) (rd x (i + d))) ∧
  rd (foldl pstep x l) (i + d) = u16 (f2 (rd x i) (rd x (i + d))).
Proof.
  intros Hnd. revert x. induction Hnd as [|j l Hj Hnd IH];
    intros x Hsep Hi Hin1 Hin2; simpl.
  - by apply elem_of_nil in Hi.
  - assert (∀ i i', i ∈ l → i' ∈ l → i ≠ i' + d) as Hsep'.
    { intros i1 i2 H1 H2. apply Hsep; by right. }
    assert (d ≠ 0) as Hd0.
    { intros ->. apply (Hsep j j); [left|left|lia]. }
    apply elem_of_cons in Hi as [->|Hi].
    + rewrite !pair_loop_miss.
      * rewrite rd_wr_ne by lia. rewrite rd_wr_eq by done.
        rewrite rd_wr_eq by by rewrite inb_wr. done.
      * intros i Hi. split; [|intros Heq; assert (j = i) as -> by lia; done].
        intros Heq. apply (Hsep i j); [by right|left|lia].
      * intros i Hi. split; [intros ->; done|].
        apply Hsep; [left|by right].
    + assert (i ≠ j) as Hij by (intros ->; done).
      assert (i ≠ j + d) as H1 by (apply Hsep; [by right|left]).
      assert (j ≠ i + d) as H2 by (apply Hsep; [left|by right]).
      destruct (IH (pstep x j)) as [-> ->]; [done|done|by rewrite !inb_wr..|].
      rewrite !rd_wr_ne by lia. done.
Qed.
End pair_loop.

Lemma walsh_stages data size :
  walsh data size = foldl (λ data d, stage_walsh size d data) data (shl_up 1 size).
Proof. reflexivity. Qed.

Lemma block_walsh_pairs d j x :
  0 < d → 0 ≤ j → j + 2 * d ≤ len x →
  pairs_of j d phi_walsh x (block_walsh d j x).
Proof.
  intros Hd Hj Hlen. unfold block_walsh, for_up. cbv zeta.
  pose (f1 := λ a b : Z, fold_red (a + b)).
  pose (f2 := λ a b : Z, fold_red (a + MODULO - b)).
  split; [apply (pair_loop_len d f1 f2)|]. split.
  { apply (pair_loop_oob d f1 f2). intros i Hi%elem_of_up_1.
    split; apply inb_spec; lia. }
  split.
  - intros k Hk. unfold phi_walsh. simpl.
    replace (j + d + k) with (j + k + d) by lia.
    apply (pair_loop_hit d f1 f2).
    + apply NoDup_up. lia.
    + intros i i' Hi%elem_of_up_1 Hi'%elem_of_up_1. lia.
    + apply elem_of_up_1. lia.
    + apply inb_spec. lia.
    + apply inb_spec. lia.
  - intros q Hq. apply (pair_loop_miss d f1 f2).
    intros i Hi%elem_of_up_1. lia.
Qed.

Lemma walsh_blocks (p e : nat) j :
  (e < p)%nat → j ∈ up 0 (2 ^ Z.of_nat p) (2 ^ Z.of_nat e ≪ 1) →
  0 ≤ j ∧ j + 2 * 2 ^ Z.of_nat e ≤ 2 ^ Z.of_nat p.
Proof.
  intros He. rewrite shiftl_1.
  assert (0 < 2 ^ Z.of_nat e) as Hd by (apply Z.pow_pos_nonneg; lia).
  intros [Hj [k Hk]]%elem_of_up; [|lia].
  assert (2 ^ Z.of_nat p = 2 ^ Z.of_nat (p - S e) * (2 * 2 ^ Z.of_nat e)) as Hp.
  { rewrite <- Z.pow_succ_r, <- Z.pow_add_r by lia. f_equal. lia. }
  assert (0 < 2 ^ Z.of_nat (p - S e)) as Hc by (apply Z.pow_pos_nonneg; lia).
  split; [lia|].
  assert (k < 2 ^ Z.of_nat (p - S e)) by nia.
  nia.
Qed.

Lemma walsh_apart (e : nat) b :
  apart (2 ^ Z.of_nat e) (λ j, j) (up 0 b (2 ^ Z.of_nat e ≪ 1)).
Proof.
  assert (0 < 2 ^ Z.of_nat e) as Hd by (apply Z.pow_pos_nonneg; lia).
  rewrite shiftl_1.
  intros j j' [Hj [k Hk]]%elem_of_up [Hj' [k' Hk']]%elem_of_up Hne; [|lia..].
  assert (k ≠ k') as Hkk by (intros ->; lia).
  destruct (decide (k < k')); [left|right].
  - assert (k + 1 ≤ k') by lia. nia.
  - assert (k' + 1 ≤ k) by lia. nia.
Qed.

Lemma stage_walsh_ops (p e : nat) n :
  (e < p)%nat → 2 ^ Z.of_nat p ≤ n →
  block_ops (2 ^ Z.of_nat e) n (λ j, j) (λ _, phi_walsh)
    (block_walsh (2 ^ Z.of_nat e)) (up 0 (2 ^ Z.of_nat p) (2 ^ Z.of_nat e ≪ 1)).
Proof.
  intros He Hn j x Hj Hx.
  destruct (walsh_blocks p e j He Hj) as [? ?].
  apply block_walsh_pairs; [apply Z.pow_pos_nonneg; lia|done|lia].
Qed.

(** A stage of [walsh] at a pair of cells of one of its blocks. *)
Lemma stage_walsh_at (p e : nat) x (b k : Z) :
  (e < p)%nat → 2 ^ Z.of_nat p ≤ len x →
  0 ≤ b → 0 ≤ k < 2 ^ Z.of_nat e →
  2 * 2 ^ Z.of_nat e * b + 2 * 2 ^ Z.of_nat e ≤ 2 ^ Z.of_nat p →
  let d := 2 ^ Z.of_nat e in
  let y := stage_walsh (2 ^ Z.of_nat p) d x in
  rd y (2 * d * b + k)
    = (phi_walsh (rd x (2 * d * b + k)) (rd x (2 * d * b + d + k))).1 ∧
  rd y (2 * d * b + d + k)
    = (phi_walsh (rd x (2 * d * b + k)) (rd x (2 * d * b + d + k))).2.
Proof.
  intros He Hn Hb Hk Hfit d y. subst d y. unfold stage_walsh, for_up.
  assert (0 < 2 ^ Z.of_nat e) as Hd by (apply Z.pow_pos_nonneg; lia).
  apply (stage_in (2 ^ Z.of_nat e) (len x) (λ j, j) (λ _, phi_walsh)
           (block_walsh (2 ^ Z.of_nat e))).
  - apply NoDup_up. rewrite shiftl_1. lia.
  - apply walsh_apart.
  - by apply stage_walsh_ops.
  - done.
  - rewrite shiftl_1. apply up_complete; [lia|nia|].
    exists b. lia.
  - done.
Qed.

Lemma stage_walsh_len size d x : len (stage_walsh size d x) = len x.
Proof. unfold stage_walsh, block_walsh, for_up. by len_tac. Qed.

(** ** One stage of the fast transform, cell by cell *)

Lemma fast_stage_length blocks d l :
  (2 * d * blocks ≤ length l)%nat → length (Fast.stage blocks d l) = length l.
Proof.
  revert l. induction blocks as [|n IH]; intros l Hl; simpl; [done|].
  rewrite !length_app, !length_zip_with, !length_take, length_drop, IH
    by (rewrite length_drop; lia).
  rewrite length_drop. lia.
Qed.

Lemma fast_stage_lookup blocks d l b k lo hi :
  (2 * d * blocks ≤ length l)%nat → (b < blocks)%nat → (k < d)%nat →
  l !! (2 * d * b + k)%nat = Some lo → l !! (2 * d * b + d + k)%nat = Some hi →
  Fast.stage blocks d l !! (2 * d * b + k)%nat = Some (Fast.bsum lo hi) ∧
  Fast.stage blocks d l !! (2 * d * b + d + k)%nat = Some (Fast.bdiff lo hi).
Proof.
  revert l b. induction blocks as [|n IH]; intros l b Hl Hb Hk Hlo Hhi; [lia|].
  cbn [Fast.stage].
  assert (length (zip_with Fast.bsum (take d l) (take d (drop d l))) = d) as Hz1.
  { rewrite length_zip_with, !length_take, length_drop. lia. }
  assert (length (zip_with Fast.bdiff (take d l) (take d (drop d l))) = d) as Hz2.
  { rewrite length_zip_with, !length_take, length_drop. lia. }
  destruct b as [|b].
  - replace (2 * d * 0 + k)%nat with k in * by lia.
    replace (2 * d * 0 + d + k)%nat with (d + k)%nat in * by lia.
    split.
    + rewrite lookup_app_l by lia.
      apply lookup_zip_with_Some. exists lo, hi. split; [done|].
      rewrite !lookup_take_lt, lookup_drop by lia. done.
    + rewrite lookup_app_r by lia. rewrite Hz1.
      replace (d + k - d)%nat with k by lia.
      rewrite lookup_app_l by lia.
      apply lookup_zip_with_Some. exists lo, hi. split; [done|].
      rewrite !lookup_take_lt, lookup_drop by lia. done.
  - destruct (IH (drop (d + d) l) b) as [H1 H2].
    + rewrite length_drop. lia.
    + lia.
    + done.
    + rewrite lookup_drop. rewrite <- Hlo. f_equal. lia.
    + rewrite lookup_drop. rewrite <- Hhi. f_equal. lia.
    + split.
      * rewrite lookup_app_r by lia. rewrite Hz1.
        rewrite lookup_app_r by lia. rewrite Hz2.
        rewrite <- H1. f_equal. lia.
      * rewrite lookup_app_r by lia. rewrite Hz1.
        rewrite lookup_app_r by lia. rewrite Hz2.
        rewrite <- H2. f_equal. lia.
Qed.

Lemma FIELD_SIZE_pow2 : FIELD_SIZE = 2 ^ Z.of_nat 16.
Proof. reflexivity. Qed.

Lemma pow2_split (p e : nat) :
  (e < p)%nat → (2 ^ p = 2 * 2 ^ e * 2 ^ (p - S e))%nat.
Proof.
  intros He. replace p with (S e + (p - S e))%nat at 1 by lia.
  rewrite Nat.pow_add_r. simpl. lia.
Qed.

Lemma sim_stage (e : nat) x l :
  (e < 16)%nat → sim x l →
  sim (stage_walsh FIELD_SIZE (2 ^ Z.of_nat e) x)
      (Fast.stage (2 ^ (16 - S e)) (2 ^ e) l).
Proof.
  intros He (Hx & Hl & Hg).
  pose proof (pow2_split 16 e He) as Hsplit.
  assert (length l = (2 ^ 16)%nat) as Hln.
  { apply Nat2Z.inj. rewrite Hl, FIELD_SIZE_pow2, Nat2Z.inj_pow. done. }
  assert (Z.of_nat (2 ^ e) = 2 ^ Z.of_nat e) as Hdz by by rewrite Nat2Z.inj_pow.
  assert (0 < 2 ^ e)%nat as Hdpos by (apply Nat.neq_0_lt_0, Nat.pow_nonzero; lia).
  set (dn := (2 ^ e)%nat) in *. set (bn := (2 ^ (16 - S e))%nat) in *.
  split; [by rewrite stage_walsh_len|]. split.
  { rewrite fast_stage_length; [done|]. lia. }
  intros k v Hv.
  assert (k < length l)%nat as Hk.
  { apply lookup_lt_Some in Hv. rewrite fast_stage_length in Hv; lia. }
  pose proof (Nat.div_mod_eq k (2 * dn)) as Hdm.
  pose proof (Nat.mod_upper_bound k (2 * dn) ltac:(lia)) as Hr.
  set (b := (k / (2 * dn))%nat) in *. set (r := (k mod (2 * dn))%nat) in *.
  assert (b < bn)%nat as Hb.
  { apply Nat.Div0.div_lt_upper_bound; lia. }
  assert (2 * dn * b + 2 * dn ≤ 2 ^ 16)%nat as Hfit by nia.
  assert (2 ^ Z.of_nat 16 ≤ len x) as Hlen by by rewrite Hx, FIELD_SIZE_pow2.
  destruct (decide (r < dn)%nat) as [Hlt|Hge].
  - destruct (lookup_lt_is_Some_2 l (2 * dn * b + r)) as [lo Hlo]; [lia|].
    destruct (lookup_lt_is_Some_2 l (2 * dn * b + dn + r)) as [hi Hhi]; [lia|].
    destruct (fast_stage_lookup bn dn l b r lo hi) as [H1 _]; [lia|done..|].
    replace k with (2 * dn * b + r)%nat in Hv |- * by lia.
    rewrite H1 in Hv. injection Hv as <-.
    destruct (Hg _ _ Hlo) as [Hlo1 Hlo2]. destruct (Hg _ _ Hhi) as [Hhi1 Hhi2].
    destruct (stage_walsh_at 16 e x (Z.of_nat b) (Z.of_nat r)) as [H2 _];
      [done|done|lia|lia| |].
    { rewrite <- Hdz. change (2 ^ Z.of_nat 16) with (Z.of_nat (2 ^ 16)). lia. }
    cbv zeta in H2. rewrite FIELD_SIZE_pow2.
    replace (Z.of_nat (2 * dn * b + r))
      with (2 * 2 ^ Z.of_nat e * Z.of_nat b + Z.of_nat r) by lia.
    rewrite H2. unfold phi_walsh. simpl.
    rewrite to_Z_bsum by done. split; [|apply u16_range].
    rewrite Hlo1, Hhi1. do 3 f_equal; f_equal; lia.
  - destruct (lookup_lt_is_Some_2 l (2 * dn * b + (r - dn))) as [lo Hlo]; [lia|].
    destruct (lookup_lt_is_Some_2 l (2 * dn * b + dn + (r - dn))) as [hi Hhi]; [lia|].
    destruct (fast_stage_lookup bn dn l b (r - dn) lo hi) as [_ H1]; [lia|done|lia|done..|].
    replace k with (2 * dn * b + dn + (r - dn))%nat in Hv |- * by lia.
    rewrite H1 in Hv. injection Hv as <-.
    destruct (Hg _ _ Hlo) as [Hlo1 Hlo2]. destruct (Hg _ _ Hhi) as [Hhi1 Hhi2].
    destruct (stage_walsh_at 16 e x (Z.of_nat b) (Z.of_nat (r - dn))) as [_ H2];
      [done|done|lia|lia| |].
    { rewrite <- Hdz. change (2 ^ Z.of_nat 16) with (Z.of_nat (2 ^ 16)). lia. }
    cbv zeta in H2. rewrite FIELD_SIZE_pow2.
    replace (Z.of_nat (2 * dn * b + dn + (r - dn)))
      with (2 * 2 ^ Z.of_nat e * Z.of_nat b + 2 ^ Z.of_nat e + Z.of_nat (r - dn)) by lia.
    rewrite H2. unfold phi_walsh. simpl.
    rewrite to_Z_bdiff by done. split; [|apply u16_range].
    rewrite Hlo1, Hhi1. do 3 f_equal; [f_equal|]; f_equal; lia.
Qed.

Lemma walsh_sim x l :
  sim x l → sim (walsh x FIELD_SIZE) (Fast.walsh 16 l).
Proof.
  intros Hs. rewrite walsh_stages. unfold Fast.walsh.
  replace (shl_up 1 FIELD_SIZE) with (pows 16)
    by (symmetry; rewrite FIELD_SIZE_pow2; apply shl_up_pow2).
  unfold pows. rewrite foldl_fmap.
  apply (foldl_rel sim); [done|].
  intros x1 l1 e He%elem_of_seq H1. rewrite sync_id. apply sim_stage; [lia|done].
Qed.

Lemma sim_load x : len x = FIELD_SIZE → symbols x → sim x (Fast.load x).
Proof.
  intros Hl Hs. unfold Fast.load. rewrite up_1.
  split; [done|]. split.
  { rewrite length_fmap, length_seqZ. change FIELD_SIZE with 65536. lia. }
  intros k v Hv. apply list_lookup_fmap_Some in Hv as (i & -> & Hi).
  apply lookup_seqZ in Hi as [-> Hk].
  destruct (Hs (0 + Z.of_nat k)) as [? ?].
  rewrite to_Z_of_Z_small by lia. rewrite Z.add_0_l in *. split; [done|lia].
Qed.

Lemma store_len x i l : len (Fast.store x i l) = len x.
Proof.
  revert x i. induction l as [|v l IH]; intros x i; simpl; [done|].
  by rewrite IH, len_wr.
Qed.

Lemma store_rd_out x i l q :
  ¬ (i ≤ q < i + Z.of_nat (length l)) → rd (Fast.store x i l) q = rd x q.
Proof.
  revert x i. induction l as [|v l IH]; intros x i Hq; simpl; [done|].
  simpl in Hq. rewrite IH by lia. apply rd_wr_ne. lia.
Qed.

Lemma store_rd_in x i l (k : nat) (v : int) :
  0 ≤ i → i + Z.of_nat (length l) ≤ len x → l !! k = Some v →
  rd (Fast.store x i l) (i + Z.of_nat k) = u16 (to_Z v).
Proof.
  revert x i k. induction l as [|w l IH]; intros x i k Hi Hlen Hk; [done|].
  simpl in *. destruct k as [|k]; simpl in Hk.
  - injection Hk as ->. rewrite store_rd_out by lia.
    rewrite Z.add_0_r. apply rd_wr_eq, inb_spec. lia.
  - replace (i + Z.of_nat (S k)) with (i + 1 + Z.of_nat k) by lia.
    apply IH; [lia|rewrite len_wr; lia|done].
Qed.

Lemma sim_store x l x0 : sim x l → len x0 = FIELD_SIZE → same (Fast.store x0 0 l) x.
Proof.
  intros (Hx & Hl & Hg) Hx0. split; [by rewrite store_len, Hx0, Hx|].
  intros q. destruct (decide (0 ≤ q < FIELD_SIZE)) as [Hq|Hq].
  - destruct (lookup_lt_is_Some_2 l (Z.to_nat q)) as [v Hv]; [lia|].
    replace q with (0 + Z.of_nat (Z.to_nat q)) at 1 by lia.
    rewrite (store_rd_in x0 0 l _ v) by (done || lia).
    destruct (Hg _ _ Hv) as [Hv1 Hv2]. pose proof (to_Z_bounded v).
    rewrite u16_small by lia. rewrite Hv1. f_equal. lia.
  - rewrite store_rd_out by lia. rewrite !rd_out; [done| |].
    + apply inb_false. by rewrite Hx.
    + apply inb_false. by rewrite Hx0.
Qed.

(** The fast transform computes the contents that [walsh] computes. *)
Lemma walsh_fast x :
  len x = FIELD_SIZE → symbols x → same (walsh x FIELD_SIZE) (fwalsh x).
Proof.
  intros Hl Hs. apply same_sym. unfold fwalsh. rewrite settle_id, sync_id.
  apply sim_store; [|done]. by apply walsh_sim, sim_load.
Qed.

(** ** Tables that differ at most in the representation of [log_walsh] *)

(** The barriers are identities; [unsettle] removes them from the goal. *)
Ltac unsettle :=
  cbv zeta;
  repeat match goal with
         | |- context [settle ?a] =>
             generalize (settle_id a); generalize (settle a); intros ? ->
         end.

Lemma encodeL_alike t t' data k codeword n :
  tables_alike t t' → encodeL t data k codeword n = encodeL t' data k codeword n.
Proof.
  destruct t, t'. intros (HL & HE & HS & HB & _). simpl in *. subst. reflexivity.
Qed.

Lemma decode_main_alike t t' codeword k erasure lw2 n :
  tables_alike t t' →
  decode_main t codeword k erasure lw2 n = decode_main t' codeword k erasure lw2 n.
Proof.
  destruct t, t'. intros (HL & HE & HS & HB & _). simpl in *. subst. reflexivity.
Qed.

Lemma init_dec_eq t :
  init_dec t
  = Tables (LOG_TABLE t) (EXP_TABLE t)
      (init_dec_log t (init_dec_skew t (skewVec t)).1)
      (init_dec_B (init_dec_skew t (skewVec t)).2 (B t))
      (walsh (init_dec_lw_in t) FIELD_SIZE).
Proof.
  unfold init_dec, init_dec_lw_in. by destruct (init_dec_skew t (skewVec t)).
Qed.

Lemma init_dec_fast_eq t :
  init_dec_fast t
  = Tables (LOG_TABLE t) (EXP_TABLE t)
      (init_dec_log t (init_dec_skew t (skewVec t)).1)
      (init_dec_B (init_dec_skew t (skewVec t)).2 (B t))
      (fwalsh (init_dec_lw_in t)).
Proof.
  unfold init_dec_fast. destruct (init_dec_skew t (skewVec t)) as [skew base].
  unsettle; reflexivity.
Qed.

Lemma init_fast_eq t : init_fast t = init t.
Proof. unfold init_fast. unsettle; reflexivity. Qed.

Lemma init_log_walsh t : log_walsh (init t) = log_walsh t.
Proof. reflexivity. Qed.

Lemma init_dec_fast_alike t :
  len (log_walsh t) = FIELD_SIZE → symbols (log_walsh t) →
  tables_alike (init_dec t) (init_dec_fast t).
Proof.
  intros Hl Hs. rewrite init_dec_eq, init_dec_fast_eq.
  unfold tables_alike. cbn [LOG_TABLE EXP_TABLE skewVec B log_walsh].
  do 4 (split; [reflexivity|]).
  apply walsh_fast.
    + unfold init_dec_lw_in. by rewrite len_wr, len_memcpy.
    + unfold init_dec_lw_in. by apply symbols_wr, symbols_memcpy.
Qed.

Lemma setup_fast_alike_gen t :
  len (log_walsh t) = FIELD_SIZE → symbols (log_walsh t) →
  tables_alike (setup t) (setup_fast t).
Proof.
  intros Hl Hs. unfold setup, setup_fast.
  generalize (init_fast_eq t). generalize (init_fast t). intros x ->.
  apply init_dec_fast_alike; assumption.
Qed.

Lemma setup_fast_alike : tables_alike (setup tables0) (setup_fast tables0).
Proof. apply setup_fast_alike_gen; [reflexivity|apply symbols_zeros]. Qed.

(** ** Loops that overwrite a range *)

Lemma inb_len a b i : len a = len b → inb a i = inb b i.
Proof. unfold inb. by intros ->. Qed.

Lemma rd_overwrite_in (g : Z → Z) n s i :
  0 ≤ i < n → inb s i = true →
  rd (for_up 0 n 1 (λ j b, wr b j (g j)) s) i = u16 (g i).
Proof.
  intros Hi Hin. unfold for_up.
  apply (store_loop_hit (λ j _, g j) (λ v, v = u16 (g i)) (up 0 n 1) s i).
  - apply NoDup_up. lia.
  - by apply elem_of_up_1.
  - done.
  - done.
Qed.

Lemma rd_overwrite_out (g : Z → Z) n s i :
  ¬ 0 ≤ i < n → rd (for_up 0 n 1 (λ j b, wr b j (g j)) s) i = rd s i.
Proof.
  intros Hi. unfold for_up.
  apply (store_loop_miss (λ j _, g j)). rewrite elem_of_up_1. lia.
Qed.

Lemma len_overwrite (g : Z → Z) n s :
  len (for_up 0 n 1 (λ j b, wr b j (g j)) s) = len s.
Proof. unfold for_up. apply (store_loop_len (λ j _, g j)). Qed.

Lemma overwrite_same (g : Z → Z) n s1 s2 :
  len s1 = len s2 → (∀ i, n ≤ i → rd s1 i = rd s2 i) →
  same (for_up 0 n 1 (λ j b, wr b j (g j)) s1) (for_up 0 n 1 (λ j b, wr b j (g j)) s2).
Proof.
  intros Hl Hr. split; [by rewrite !len_overwrite|].
  intros i. destruct (decide (0 ≤ i < n)) as [Hi|Hi].
  - destruct (inb s1 i) eqn:Hin.
    + rewrite (rd_overwrite_in g n s1) by done.
      rewrite (rd_overwrite_in g n s2); [done..|]. by rewrite <- (inb_len s1 s2).
    + rewrite !rd_out; [done| |].
      * rewrite (inb_len _ s2) by apply len_overwrite.
        by rewrite <- (inb_len s1 s2).
      * by rewrite (inb_len _ s1) by apply len_overwrite.
  - rewrite !rd_overwrite_out by done.
    destruct (decide (n ≤ i)); [by apply Hr|].
    assert (inb s1 i = false) as Hout by (apply inb_false; lia).
    rewrite !rd_out; [done| |done]. by rewrite <- (inb_len s1 s2).
Qed.

(** ** The locator array *)

Lemma decode_init_scratch t erasure s1 s2 n :
  len s1 = len s2 → (∀ i, n ≤ i → rd s1 i = rd s2 i) →
  same (decode_init t erasure s1 n) (decode_init t erasure s2 n).
Proof.
  intros Hl Hr. unfold decode_init.
  apply for_up_same.
  - apply walsh_same, for_up_same.
    + apply walsh_same. by apply (overwrite_same (λ j, rd erasure j)).
    + intros i a b Hab. apply same_wr; [done|]. destruct Hab as [_ Hab]. by rewrite Hab.
  - intros i a b Hab. destruct (negb (rd erasure i =? 0)); [|done].
    apply same_wr; [done|]. destruct Hab as [_ Hab]. by rewrite Hab.
Qed.

Lemma decode_init_fast_same t t' erasure s n :
  tables_alike t t' → len s = FIELD_SIZE → symbols s →
  same (decode_init t erasure s n) (decode_init_fast t' erasure s n).
Proof.
  intros (_ & _ & _ & _ & Hlw) Hl Hs. unfold decode_init, decode_init_fast.
  unsettle.
  set (x1 := for_up 0 n 1 (λ i lw2, wr lw2 i (rd erasure i)) s).
  assert (len x1 = FIELD_SIZE) as Hl1.
  { unfold x1, for_up. by rewrite (store_loop_len (λ j _, rd erasure j)). }
  assert (symbols x1) as Hs1.
  { unfold x1, for_up. apply foldl_symbols; [done|]. intros a i Ha. by apply symbols_wr. }
  assert (same (walsh x1 FIELD_SIZE) (fwalsh x1)) as H1 by by apply walsh_fast.
  set (y := for_up 0 n 1 (λ i lw2, wr lw2 i ((rd lw2 i * rd (log_walsh t') i) `mod` MODULO))
              (fwalsh x1)).
  assert (len y = FIELD_SIZE) as Hly.
  { unfold y, for_up.
    rewrite (store_loop_len (λ j b, (rd b j * rd (log_walsh t') j) `mod` MODULO)).
    destruct H1 as [<- _]. by rewrite len_walsh. }
  assert (symbols y) as Hsy.
  { unfold y, for_up. apply foldl_symbols.
    - apply (same_symbols _ _ H1). by apply symbols_walsh.
    - intros a i Ha. by apply symbols_wr. }
  apply for_up_same.
  - apply same_trans with (walsh y FIELD_SIZE); [|by apply walsh_fast].
    apply walsh_same, for_up_same; [done|].
    intros i a b Hab. apply same_wr; [done|].
    destruct Hab as [_ Hab]. destruct Hlw as [_ Hlw]. by rewrite Hab, Hlw.
  - intros i a b Hab. destruct (negb (rd erasure i =? 0)); [|done].
    apply same_wr; [done|]. destruct Hab as [_ Hab]. by rewrite Hab.
Qed.

(** ** [decode_main] reads the locator array only at positions below [n] *)

Lemma decode_scale_ext t codeword erasure lw2 lw2' n :
  (∀ i, 0 ≤ i < n → rd lw2 i = rd lw2' i) →
  decode_scale t codeword erasure lw2 n = decode_scale t codeword erasure lw2' n.
Proof.
  intros H. unfold decode_scale, for_up. apply foldl_ext_in.
  intros a i Hi. apply elem_of_up_1 in Hi. by rewrite H.
Qed.

Lemma decode_recover_ext t codeword erasure lw2 lw2' k :
  (∀ i, 0 ≤ i < k → rd lw2 i = rd lw2' i) →
  decode_recover t codeword erasure lw2 k = decode_recover t codeword erasure lw2' k.
Proof.
  intros H. unfold decode_recover, for_up. apply foldl_ext_in.
  intros a i Hi. apply elem_of_up_1 in Hi. by rewrite H.
Qed.

Lemma decode_main_ext t codeword k erasure lw2 lw2' n :
  k ≤ n → (∀ i, 0 ≤ i < n → rd lw2 i = rd lw2' i) →
  decode_main t codeword k erasure lw2 n = decode_main t codeword k erasure lw2' n.
Proof.
  intros Hk H. unfold decode_main.
  rewrite (decode_scale_ext t codeword erasure lw2 lw2') by done.
  apply decode_recover_ext. intros i Hi. apply H. lia.
Qed.

(** ** Evaluation *)

(** [rew E] rewrites with the equation [E] at the occurrences of its left-hand
    side as written, without unfolding anything. *)
Ltac rew E :=
  match type of E with
  | ?a = _ => generalize E; generalize a; intros ? ->
  end.

Lemma forallb_up (f : Z → bool) a b i :
  forallb f (up a b 1) = true → a ≤ i < b → f i = true.
Proof.
  intros H Hi. rewrite forallb_forall in H. apply H.
  apply list_elem_of_In, elem_of_up_1, Hi.
Qed.

Lemma cert_init_spec t :
  cert_init t = true →
  (∀ x, 0 < x < FIELD_SIZE →
     rd (EXP_TABLE t) (rd (LOG_TABLE t) x) = x ∧ 0 ≤ rd (LOG_TABLE t) x < MODULO) ∧
  rd (EXP_TABLE t) MODULO = rd (EXP_TABLE t) 0 ∧
  rd (LOG_TABLE t) 1 = 0.
Proof.
  unfold cert_init. intros H.
  apply andb_prop in H as [H H5]. apply andb_prop in H as [H H4].
  apply Z.eqb_eq in H4, H5. split; [|exact (conj H4 H5)].
  intros x Hx. apply (forallb_up _ 1 FIELD_SIZE x) in H; [|lia].
  apply andb_prop in H as [H H3]. apply andb_prop in H as [H1 H2].
  apply Z.eqb_eq in H1. apply Z.leb_le in H2. apply Z.ltb_lt in H3.
  exact (conj H1 (conj H2 H3)).
Qed.

Lemma cert_skew_spec s : cert_skew s = true → oob s = None ∧ len s = MODULO.
Proof.
  unfold cert_skew. intros [H1 H2]%andb_prop.
  apply bool_decide_eq_true_1 in H1. apply Z.eqb_eq in H2. exact (conj H1 H2).
Qed.

Lemma cert_again_spec once twice :
  cert_again once twice = true →
  rd (skewVec once) 32767 = 65535 ∧ rd (skewVec twice) 32767 = 45925.
Proof.
  unfold cert_again. intros [H1 H2]%andb_prop.
  apply Z.eqb_eq in H1, H2. exact (conj H1 H2).
Qed.

Lemma cert_locator_spec t i :
  cert_locator t = true → 0 ≤ i < 8 →
  rd (decode_init_fast t (mask_of [0; 1]) (zeros FIELD_SIZE) FIELD_SIZE) i
  = rd (of_list locator01) i.
Proof.
  unfold cert_locator. cbv zeta. intros H Hi.
  apply (forallb_up _ 0 8 i) in H; [|exact Hi]. apply Z.eqb_eq in H. exact H.
Qed.

Lemma cert_decode_spec t :
  cert_decode t = true →
  (rd (decode_with t (of_list [1; 2; 3; 5]) 4 (zeros 8) 8
         (mask_of [0; 1]) (of_list locator01)) 0 = 1 ∧
   rd (decode_with t (of_list [1; 2; 3; 5]) 4 (zeros 8) 8
         (mask_of [0; 1]) (of_list locator01)) 1 = 2 ∧
   rd (decode_with t (of_list [1; 2; 3; 5]) 4 (zeros 8) 8
         (mask_of [0; 1]) (of_list locator01)) 2 = 0 ∧
   rd (decode_with t (of_list [1; 2; 3; 5]) 4 (zeros 8) 8
         (mask_of [0; 1]) (of_list locator01)) 3 = 0 ∧
   oob (decode_with t (of_list [1; 2; 3; 5]) 4 (zeros 8) 8
          (mask_of [0; 1]) (of_list locator01)) = None) ∧
  ((rd (decode_with t (of_list [1; 2]) 2 (zeros 6) 6
          (mask_of [0; 1]) (of_list locator01)) 0 = 2 ∧
    rd (decode_with t (of_list [1; 2]) 2 (zeros 6) 6
          (mask_of [0; 1]) (of_list locator01)) 1 = 1 ∧
    oob (decode_with t (of_list [1; 2]) 2 (zeros 6) 6
           (mask_of [0; 1]) (of_list locator01)) = Some 6) ∧
   (rd (decode_with t (of_list [1; 2]) 2 (zeros 8) 6
          (mask_of [0; 1]) (of_list locator01)) 0 = 3 ∧
    rd (decode_with t (of_list [1; 2]) 2 (zeros 8) 6
          (mask_of [0; 1]) (of_list locator01)) 1 = 0 ∧
    oob (decode_with t (of_list [1; 2]) 2 (zeros 8) 6
           (mask_of [0; 1]) (of_list locator01)) = None)).
Proof.
  unfold cert_decode. cbv zeta. intros H.
  apply andb_prop in H as [H H11]. apply andb_prop in H as [H H10].
  apply andb_prop in H as [H H9]. apply andb_prop in H as [H H8].
  apply andb_prop in H as [H H7]. apply andb_prop in H as [H H6].
  apply andb_prop in H as [H H5]. apply andb_prop in H as [H H4].
  apply andb_prop in H as [H H3]. apply andb_prop in H as [H1 H2].
  apply Z.eqb_eq in H1, H2, H3, H4, H6, H7, H9, H10.
  apply bool_decide_eq_true_1 in H5. apply bool_decide_eq_true_1 in H8.
  apply bool_decide_eq_true_1 in H11.
  exact (conj (conj H1 (conj H2 (conj H3 (conj H4 H5))))
              (conj (conj H6 (conj H7 H8)) (conj H9 (conj H10 H11)))).
Qed.

Lemma cert_scratch_spec t :
  cert_scratch t = true →
  rd (decode_init_fast t (mask_of [0; 1]) (zeros FIELD_SIZE) 2) 0 = 1 ∧
  rd (decode_init_fast t (mask_of [0; 1]) (wr (zeros FIELD_SIZE) 5 1) 2) 0 = 8106.
Proof.
  unfold cert_scratch. cbv zeta. intros [H1 H2]%andb_prop.
  apply Z.eqb_eq in H1, H2. exact (conj H1 H2).
Qed.

Lemma cert_init_ok : cert_init (init tables0) = true.
Proof. vm_cast_no_check (eq_refl true). Qed.

Lemma cert_skew_ok :
  cert_skew (init_dec_skew (init tables0) (skewVec (init tables0))).1 = true.
Proof. vm_cast_no_check (eq_refl true). Qed.

Lemma cert_again_ok : cert_again (setup tables0) (setup (setup tables0)) = true.
Proof. vm_cast_no_check (eq_refl true). Qed.

Lemma cert_locator_ok : cert_locator (setup_fast tables0) = true.
Proof. vm_cast_no_check (eq_refl true). Qed.

Lemma cert_decode_ok : cert_decode (setup_fast tables0) = true.
Proof. vm_cast_no_check (eq_refl true). Qed.

Lemma cert_scratch_ok : cert_scratch (setup_fast tables0) = true.
Proof. vm_cast_no_check (eq_refl true). Qed.

(** ** The field tables after [init] *)

Lemma init_tables x :
  0 < x < FIELD_SIZE →
  rd (EXP_TABLE (init tables0)) (rd (LOG_TABLE (init tables0)) x) = x ∧
  0 ≤ rd (LOG_TABLE (init tables0)) x < MODULO.
Proof. destruct (cert_init_spec _ cert_init_ok) as (H & _ & _). exact (H x). Qed.

Lemma init_EXP_MODULO :
  rd (EXP_TABLE (init tables0)) MODULO = rd (EXP_TABLE (init tables0)) 0.
Proof. destruct (cert_init_spec _ cert_init_ok) as (_ & H & _). exact H. Qed.

Lemma init_LOG_1 : rd (LOG_TABLE (init tables0)) 1 = 0.
Proof. destruct (cert_init_spec _ cert_init_ok) as (_ & _ & H). exact H. Qed.

Lemma init_dec_LOG t : LOG_TABLE (init_dec t) = LOG_TABLE t.
Proof. unfold init_dec. destruct (init_dec_skew t (skewVec t)). reflexivity. Qed.

Lemma init_dec_EXP t : EXP_TABLE (init_dec t) = EXP_TABLE t.
Proof. unfold init_dec. destruct (init_dec_skew t (skewVec t)). reflexivity. Qed.

Lemma init_dec_skewVec t :
  skewVec (init_dec t) = init_dec_log t (init_dec_skew t (skewVec t)).1.
Proof.
  unfold init_dec. destruct (init_dec_skew t (skewVec t)) as [skew base].
  change ((skew, base).1) with skew.
  generalize (init_dec_log t skew). intros s. reflexivity.
Qed.

Lemma setup_LOG t : LOG_TABLE (setup t) = LOG_TABLE (init t).
Proof. unfold setup. apply init_dec_LOG. Qed.

Lemma setup_EXP t : EXP_TABLE (setup t) = EXP_TABLE (init t).
Proof. unfold setup. apply init_dec_EXP. Qed.

Lemma setup_skewVec t :
  skewVec (setup t)
  = init_dec_log (init t) (init_dec_skew (init t) (skewVec (init t))).1.
Proof. unfold setup. apply init_dec_skewVec. Qed.

(** [mulE] on tables whose logarithms of nonzero symbols are below [MODULO] *)
Lemma mulE_nonzero t a b :
  0 < a < FIELD_SIZE → 0 ≤ b ≤ MODULO →
  mulE t a b = rd (EXP_TABLE t) (mulE_index t a b).
Proof.
  unfold MODULO, FIELD_SIZE, FIELD_BITS. change (1 ≪ 16) with 65536.
  intros Ha Hb. unfold mulE. cbv zeta.
  rewrite (u16_small a), (u16_small b) by lia.
  by assert ((a =? 0) = false) as -> by lia.
Qed.

(** ** The final pass of [init_dec] *)

Lemma up_snoc a b : a ≤ b → up a (b + 1) 1 = up a b 1 ++ [b].
Proof.
  intros Hab. rewrite !up_1.
  replace (b + 1 - a) with ((b - a) + 1) by lia.
  rewrite seqZ_app by lia. f_equal.
  replace (a + (b - a)) with b by lia. reflexivity.
Qed.

Lemma init_dec_log_oob t skew :
  len skew = MODULO → oob skew = None →
  oob (init_dec_log t skew) = Some MODULO ∧ len (init_dec_log t skew) = MODULO.
Proof.
  intros Hl Ho. unfold init_dec_log, for_up.
  change FIELD_SIZE with (MODULO + 1).
  rewrite up_snoc by done. rewrite foldl_snoc.
  set (s := foldl _ skew _).
  assert (len s = MODULO ∧ oob s = None) as [Hls Hos].
  { unfold s. apply (foldl_inv (λ a, len a = MODULO ∧ oob a = None)); [done|].
    intros a i Hi%elem_of_up_1 [Ha1 Ha2]. rewrite len_wr. split; [done|].
    rewrite oob_wr_in; [done|]. apply inb_spec. lia. }
  clearbody s. rewrite len_wr. split; [|done].
  unfold wr. assert (inb s MODULO = false) as -> by (apply inb_false; lia).
  simpl. by rewrite Hos.
Qed.

(** ** Transfer from the evaluation path *)

Lemma decode_run_transfer t t' data k cw n er scratch lit :
  tables_alike t t' → len scratch = FIELD_SIZE → k ≤ n →
  (∀ i, 0 ≤ i < n →
     rd (decode_init_fast t' er (zeros FIELD_SIZE) FIELD_SIZE) i = rd lit i) →
  decode_run t data k cw n er scratch = decode_with t' data k cw n er lit.
Proof.
  intros Ht Hl Hk Hlit. unfold decode_run, decode_with.
  rewrite (encodeL_alike t t') by done.
  rewrite (decode_main_alike t t') by done.
  apply decode_main_ext; [done|]. intros i Hi. rewrite <- Hlit by done.
  transitivity (rd (decode_init t er (zeros FIELD_SIZE) FIELD_SIZE) i).
  - apply decode_init_scratch; [done|].
    intros j Hj. rewrite !rd_out; [done|apply inb_false..].
    + change (len (zeros FIELD_SIZE)) with FIELD_SIZE. lia.
    + lia.
  - apply decode_init_fast_same; [done|done|apply symbols_zeros].
Qed.

Lemma scenario_transfer data k cw n scratch :
  len scratch = FIELD_SIZE → k ≤ n → n ≤ 8 →
  decode_run (setup tables0) data k cw n (mask_of [0; 1]) scratch
  = decode_with (setup_fast tables0) data k cw n (mask_of [0; 1]) (of_list locator01).
Proof.
  intros Hl Hk Hn. apply decode_run_transfer; [apply setup_fast_alike|done|done|].
  intros i Hi. apply (cert_locator_spec _ i cert_locator_ok). lia.
Qed.

Lemma scenario_k4_n8_facts scratch :
  len scratch = FIELD_SIZE →
  rd (scenario_k4_n8 scratch) 0 = 1 ∧ rd (scenario_k4_n8 scratch) 1 = 2 ∧
  rd (scenario_k4_n8 scratch) 2 = 0 ∧ rd (scenario_k4_n8 scratch) 3 = 0 ∧
  oob (scenario_k4_n8 scratch) = None.
Proof.
  intros Hl. unfold scenario_k4_n8.
  rew (scenario_transfer (of_list [1; 2; 3; 5]) 4 (zeros 8) 8 scratch Hl
         ltac:(lia) ltac:(lia)).
  exact (proj1 (cert_decode_spec _ cert_decode_ok)).
Qed.

Lemma scenario_k2_n6_facts scratch :
  len scratch = FIELD_SIZE →
  (rd (scenario_k2_n6 6 scratch) 0 = 2 ∧ rd (scenario_k2_n6 6 scratch) 1 = 1 ∧
   oob (scenario_k2_n6 6 scratch) = Some 6) ∧
  (rd (scenario_k2_n6 8 scratch) 0 = 3 ∧ rd (scenario_k2_n6 8 scratch) 1 = 0 ∧
   oob (scenario_k2_n6 8 scratch) = None).
Proof.
  intros Hl. unfold scenario_k2_n6.
  rew (scenario_transfer (of_list [1; 2]) 2 (zeros 6) 6 scratch Hl
         ltac:(lia) ltac:(lia)).
  rew (scenario_transfer (of_list [1; 2]) 2 (zeros 8) 6 scratch Hl
         ltac:(lia) ltac:(lia)).
  exact (proj2 (cert_decode_spec _ cert_decode_ok)).
Qed.

Lemma scratch_matters :
  rd (decode_init (setup tables0) (mask_of [0; 1]) (zeros FIELD_SIZE) 2) 0 = 1 ∧
  rd (decode_init (setup tables0) (mask_of [0; 1]) (wr (zeros FIELD_SIZE) 5 1) 2) 0
  = 8106.
Proof.
  destruct (decode_init_fast_same _ _ (mask_of [0; 1]) (zeros FIELD_SIZE) 2
              setup_fast_alike eq_refl (symbols_zeros _)) as [_ E1].
  destruct (decode_init_fast_same _ _ (mask_of [0; 1]) (wr (zeros FIELD_SIZE) 5 1) 2
              setup_fast_alike eq_refl (symbols_wr _ 5 1 (symbols_zeros _))) as [_ E2].
  rew (E1 0). rew (E2 0). exact (cert_scratch_spec _ cert_scratch_ok).
Qed.

(** ** Auxiliary facts for the statements below *)

Lemma symbols_fill l b i : symbols b → symbols (fill b i l).
Proof.
  revert b i. induction l as [|v l IH]; intros b i Hb; simpl; [done|].
  by apply IH, symbols_wr.
Qed.

Lemma symbols_of_list l : symbols (of_list l).
Proof. apply symbols_fill, symbols_zeros. Qed.

Lemma MODULO_eq : MODULO = 65535.
Proof. reflexivity. Qed.

(** One butterfly on two symbols: what is stored is the fold reduction
    itself, in [0, MODULO], congruent to the sum and to the difference. *)
Lemma butterfly_fold lo hi :
  0 ≤ lo < 65536 → 0 ≤ hi < 65536 →
  phi_walsh lo hi = (fold_red (lo + hi), fold_red (lo + MODULO - hi)) ∧
  0 ≤ fold_red (lo + hi) ≤ MODULO ∧
  0 ≤ fold_red (lo + MODULO - hi) ≤ MODULO ∧
  fold_red (lo + hi) `mod` MODULO = (lo + hi) `mod` MODULO ∧
  fold_red (lo + MODULO - hi) `mod` MODULO = (lo - hi) `mod` MODULO.
Proof.
  intros Hlo Hhi. pose proof MODULO_eq as HM.
  assert (0 ≤ lo + hi ≤ 2 * MODULO) as Hsum by lia.
  assert (0 ≤ lo + MODULO - hi ≤ 2 * MODULO) as Hdiff by lia.
  pose proof (fold_red_range _ Hsum) as Hr1.
  pose proof (fold_red_range _ Hdiff) as Hr2.
  split; [|split; [done|split; [done|split; [by apply fold_red_congr|]]]].
  - unfold phi_walsh. by rewrite !u16_small by lia.
  - rewrite fold_red_congr by done.
    replace (lo + MODULO - hi) with (lo - hi + 1 * MODULO) by lia.
    apply Z.mod_add. lia.
Qed.

(** A stage of [walsh] of size [2 ^ p] stores inside the array and leaves the
    cells outside [0, 2 ^ p) as they are. *)
Lemma stage_walsh_frame (p e : nat) x :
  (e < p)%nat → 2 ^ Z.of_nat p ≤ len x →
  oob (stage_walsh (2 ^ Z.of_nat p) (2 ^ Z.of_nat e) x) = oob x ∧
  ∀ q, ¬ (0 ≤ q < 2 ^ Z.of_nat p) →
       rd (stage_walsh (2 ^ Z.of_nat p) (2 ^ Z.of_nat e) x) q = rd x q.
Proof.
  intros He Hn. unfold stage_walsh, for_up. split.
  - apply (stage_oob (2 ^ Z.of_nat e) (len x) (λ j, j) (λ _, phi_walsh)
             (block_walsh (2 ^ Z.of_nat e))); [|done].
    by apply stage_walsh_ops.
  - intros q Hq.
    apply (stage_out (2 ^ Z.of_nat e) (len x) (λ j, j) (λ _, phi_walsh)
             (block_walsh (2 ^ Z.of_nat e))); [by apply stage_walsh_ops|done|].
    intros j Hj. destruct (walsh_blocks p e j He Hj) as [? ?]. lia.
Qed.

Lemma mulE_index_range t a b :
  0 ≤ rd (LOG_TABLE t) a < MODULO → 0 ≤ b ≤ MODULO →
  0 ≤ rd (LOG_TABLE t) a + b < 2 * MODULO ∧
  0 ≤ mulE_index t a b ≤ MODULO ∧
  mulE_index t a b =
    (if rd (LOG_TABLE t) a + b =? MODULO then MODULO
     else (rd (LOG_TABLE t) a + b) `mod` MODULO).
Proof.
  intros Ha Hb. unfold mulE_index.
  generalize dependent (rd (LOG_TABLE t) a). intros l Hl.
  split; [lia|]. split; [apply fold_red_range; lia|].
  destruct (l + b =? MODULO) eqn:E.
  - apply Z.eqb_eq in E. rewrite E. apply fold_red_MODULO.
  - apply Z.eqb_neq in E. apply fold_red_mod; [lia|done].
Qed.

Section mulE_tables.
Context (t : tables).
Context (Hlog : ∀ x, 0 < x < FIELD_SIZE → 0 ≤ rd (LOG_TABLE t) x < MODULO).
Context (Hexp : rd (EXP_TABLE t) MODULO = rd (EXP_TABLE t) 0).

Lemma mulE_by_index a b :
  0 ≤ a < FIELD_SIZE → 0 ≤ b ≤ MODULO →
  (a = 0 → mulE t a b = 0) ∧
  (a ≠ 0 →
     0 ≤ rd (LOG_TABLE t) a + b < 2 * MODULO ∧
     0 ≤ mulE_index t a b ≤ MODULO ∧
     mulE t a b = rd (EXP_TABLE t) (mulE_index t a b) ∧
     mulE_index t a b =
       (if rd (LOG_TABLE t) a + b =? MODULO then MODULO
        else (rd (LOG_TABLE t) a + b) `mod` MODULO) ∧
     mulE t a b = rd (EXP_TABLE t) ((rd (LOG_TABLE t) a + b) `mod` MODULO)).
Proof.
  intros Ha Hb. split.
  - intros ->. reflexivity.
  - intros Hne. assert (0 < a < FIELD_SIZE) as Ha' by lia.
    destruct (mulE_index_range t a b (Hlog a Ha') Hb) as (H1 & H2 & H3).
    pose proof (mulE_nonzero t a b Ha' Hb) as H4.
    repeat split; try done; try lia.
    rewrite H4, H3. destruct (_ =? MODULO) eqn:E; [|done].
    apply Z.eqb_eq in E. rewrite E, Z.mod_same by (rewrite MODULO_eq; lia).
    exact Hexp.
Qed.
End mulE_tables.

Lemma setup_LOG_range x :
  0 < x < FIELD_SIZE → 0 ≤ rd (LOG_TABLE (setup tables0)) x < MODULO.
Proof. intros Hx. rew (setup_LOG tables0). exact (proj2 (init_tables x Hx)). Qed.

Lemma setup_EXP_MODULO :
  rd (EXP_TABLE (setup tables0)) MODULO = rd (EXP_TABLE (setup tables0)) 0.
Proof. rew (setup_EXP tables0). exact init_EXP_MODULO. Qed.

(** * The claims *)

(** C1 (code defect): with [k = 2] and [n = 6], a multiple of [k] that is not
    a power of two, the message 1 2 and positions 0 and 1 erased (two erasures,
    at most [n - k = 4]), decoding does not return the message.  In a codeword
    array of [n = 6] symbols, as [roundtrip] declares it, [decode_main] stores
    past the end of the array, first at index 6, and positions 0 and 1 come out
    as 2 and 1; in an array of 8 symbols no store is out of bounds and they
    come out as 3 and 0.  This holds whatever the scratch array of
    [FIELD_SIZE] symbols contains. *)
Theorem roundtrip_fails_when_n_is_not_a_power_of_two (scratch : buf) :
  len scratch = FIELD_SIZE →
  (rd (scenario_k2_n6 6 scratch) 0 = 2 ∧ rd (scenario_k2_n6 6 scratch) 1 = 1 ∧
   oob (scenario_k2_n6 6 scratch) = Some 6) ∧
  (rd (scenario_k2_n6 8 scratch) 0 = 3 ∧ rd (scenario_k2_n6 8 scratch) 1 = 0 ∧
   oob (scenario_k2_n6 8 scratch) = None).
Proof. intros Hl. exact (scenario_k2_n6_facts scratch Hl). Qed.

Lemma roundtrip_fails_when_n_is_not_a_power_of_two_witness :
  len (zeros FIELD_SIZE) = FIELD_SIZE ∧
  ((rd (scenario_k2_n6 6 (zeros FIELD_SIZE)) 0 = 2 ∧
    rd (scenario_k2_n6 6 (zeros FIELD_SIZE)) 1 = 1 ∧
    oob (scenario_k2_n6 6 (zeros FIELD_SIZE)) = Some 6) ∧
   (rd (scenario_k2_n6 8 (zeros FIELD_SIZE)) 0 = 3 ∧
    rd (scenario_k2_n6 8 (zeros FIELD_SIZE)) 1 = 0 ∧
    oob (scenario_k2_n6 8 (zeros FIELD_SIZE)) = None)).
Proof.
  split; [reflexivity|].
  apply (roundtrip_fails_when_n_is_not_a_power_of_two (zeros FIELD_SIZE)).
  reflexivity.
Defined.

(** C2: for a block of [2 ^ p] field symbols at offset [off] of an array [x],
    [IFLT] after [FLT] and [FLT] after [IFLT], with the same size and index,
    give back [x]: same length, same contents, same out-of-bounds record.  This
    holds for every index and for any tables, those of [setup] included. *)
Theorem transform_pair_inverse (t : tables) (p : nat) (off index : Z) (x : buf) :
  0 ≤ off → off + 2 ^ Z.of_nat p ≤ len x → symbols x →
  alike (IFLT t (FLT t x off (2 ^ Z.of_nat p) index) off (2 ^ Z.of_nat p) index) x ∧
  alike (FLT t (IFLT t x off (2 ^ Z.of_nat p) index) off (2 ^ Z.of_nat p) index) x.
Proof.
  intros Hoff Hlen Hs. split.
  - by apply IFLT_FLT.
  - by apply FLT_IFLT.
Qed.

Lemma transform_pair_inverse_witness :
  0 ≤ 0 ∧
  0 + 2 ^ Z.of_nat 4
    ≤ len (of_list [1; 2; 3; 5; 8; 13; 21; 44; 65; 0; 65535; 2; 3; 5; 7; 11]) ∧
  symbols (of_list [1; 2; 3; 5; 8; 13; 21; 44; 65; 0; 65535; 2; 3; 5; 7; 11]) ∧
  alike
    (IFLT (setup tables0)
       (FLT (setup tables0)
          (of_list [1; 2; 3; 5; 8; 13; 21; 44; 65; 0; 65535; 2; 3; 5; 7; 11])
          0 (2 ^ Z.of_nat 4) 4) 0 (2 ^ Z.of_nat 4) 4)
    (of_list [1; 2; 3; 5; 8; 13; 21; 44; 65; 0; 65535; 2; 3; 5; 7; 11]) ∧
  alike
    (FLT (setup tables0)
       (IFLT (setup tables0)
          (of_list [1; 2; 3; 5; 8; 13; 21; 44; 65; 0; 65535; 2; 3; 5; 7; 11])
          0 (2 ^ Z.of_nat 4) 4) 0 (2 ^ Z.of_nat 4) 4)
    (of_list [1; 2; 3; 5; 8; 13; 21; 44; 65; 0; 65535; 2; 3; 5; 7; 11]).
Proof.
  split; [lia|]. split; [vm_compute; discriminate|].
  split; [apply symbols_of_list|].
  apply (transform_pair_inverse (setup tables0) 4 0 4).
  - lia.
  - vm_compute; discriminate.
  - apply symbols_of_list.
Defined.

(** C3 (code defect): the final pass of [init_dec] runs its index up to
    [FIELD_SIZE - 1 = MODULO], one past the last cell of [skewVec], which has
    [MODULO] cells: after [setup] the first out-of-bounds store into [skewVec]
    is recorded at index [MODULO]. *)
Theorem init_dec_final_pass_out_of_bounds :
  oob (skewVec (setup tables0)) = Some MODULO ∧
  len (skewVec (setup tables0)) = MODULO.
Proof.
  rew (setup_skewVec tables0).
  destruct (cert_skew_spec _ cert_skew_ok) as [Ho Hl].
  exact (init_dec_log_oob _ _ Hl Ho).
Qed.

(** C4, counterexample: both entries of the array are 0, inside [0, MODULO),
    and after [walsh] entry 1 is [MODULO]. *)
Lemma walsh_reaches_MODULO :
  len (of_list [0; 0]) = 2 ∧
  rd (of_list [0; 0]) 0 = 0 ∧ rd (of_list [0; 0]) 1 = 0 ∧
  rd (walsh (of_list [0; 0]) 2) 1 = MODULO.
Proof. repeat split; vm_compute; reflexivity. Qed.

(** C4, amended: for an array of field symbols with at least [2 ^ p] cells,
    after [walsh] every entry lies in [0, MODULO], the bound included (this
    part holds for every size).  [walsh] of size [2 ^ p] is the sequence of its
    stages [depart_no = 1, 2, ..., 2 ^ (p - 1)]; a stage keeps the length, the
    out-of-bounds record and the cells outside [0, 2 ^ p), and on an array of
    symbols it replaces every pair of cells [i], [i + depart_no] by exactly the
    fold reductions of their sum and of their difference plus [MODULO],
    without truncation: both lie in [0, MODULO] and are congruent modulo
    [MODULO] to the sum and to the difference. *)
Theorem walsh_entries_up_to_MODULO (data : buf) (p : nat) :
  symbols data → 2 ^ Z.of_nat p ≤ len data →
  (∀ size i, 0 ≤ rd (walsh data size) i ≤ MODULO) ∧
  walsh data (2 ^ Z.of_nat p)
    = foldl (λ x d, stage_walsh (2 ^ Z.of_nat p) d x) data (pows p) ∧
  ∀ (e : nat) (x : buf),
    (e < p)%nat → symbols x → len x = len data →
    symbols (stage_walsh (2 ^ Z.of_nat p) (2 ^ Z.of_nat e) x) ∧
    len (stage_walsh (2 ^ Z.of_nat p) (2 ^ Z.of_nat e) x) = len data ∧
    oob (stage_walsh (2 ^ Z.of_nat p) (2 ^ Z.of_nat e) x) = oob x ∧
    (∀ q, ¬ (0 ≤ q < 2 ^ Z.of_nat p) →
          rd (stage_walsh (2 ^ Z.of_nat p) (2 ^ Z.of_nat e) x) q = rd x q) ∧
    ∀ b k : Z,
      0 ≤ b → 0 ≤ k < 2 ^ Z.of_nat e →
      2 * 2 ^ Z.of_nat e * b + 2 * 2 ^ Z.of_nat e ≤ 2 ^ Z.of_nat p →
      rd (stage_walsh (2 ^ Z.of_nat p) (2 ^ Z.of_nat e) x)
         (2 * 2 ^ Z.of_nat e * b + k)
        = fold_red (rd x (2 * 2 ^ Z.of_nat e * b + k)
                    + rd x (2 * 2 ^ Z.of_nat e * b + 2 ^ Z.of_nat e + k)) ∧
      rd (stage_walsh (2 ^ Z.of_nat p) (2 ^ Z.of_nat e) x)
         (2 * 2 ^ Z.of_nat e * b + 2 ^ Z.of_nat e + k)
        = fold_red (rd x (2 * 2 ^ Z.of_nat e * b + k) + MODULO
                    - rd x (2 * 2 ^ Z.of_nat e * b + 2 ^ Z.of_nat e + k)) ∧
      0 ≤ fold_red (rd x (2 * 2 ^ Z.of_nat e * b + k)
                    + rd x (2 * 2 ^ Z.of_nat e * b + 2 ^ Z.of_nat e + k)) ≤ MODULO ∧
      0 ≤ fold_red (rd x (2 * 2 ^ Z.of_nat e * b + k) + MODULO
                    - rd x (2 * 2 ^ Z.of_nat e * b + 2 ^ Z.of_nat e + k)) ≤ MODULO ∧
      fold_red (rd x (2 * 2 ^ Z.of_nat e * b + k)
                + rd x (2 * 2 ^ Z.of_nat e * b + 2 ^ Z.of_nat e + k)) `mod` MODULO
        = (rd x (2 * 2 ^ Z.of_nat e * b + k)
           + rd x (2 * 2 ^ Z.of_nat e * b + 2 ^ Z.of_nat e + k)) `mod` MODULO ∧
      fold_red (rd x (2 * 2 ^ Z.of_nat e * b + k) + MODULO
                - rd x (2 * 2 ^ Z.of_nat e * b + 2 ^ Z.of_nat e + k)) `mod` MODULO
        = (rd x (2 * 2 ^ Z.of_nat e * b + k)
           - rd x (2 * 2 ^ Z.of_nat e * b + 2 ^ Z.of_nat e + k)) `mod` MODULO.
Proof.
  intros Hs Hn. split; [|split].
  - intros size i. pose proof (symbols_walsh data size Hs i).
    pose proof MODULO_eq. lia.
  - by rewrite walsh_stages, shl_up_pow2.
  - intros e x He Hx Hl.
    assert (2 ^ Z.of_nat p ≤ len x) as Hnx by lia.
    destruct (stage_walsh_frame p e x He Hnx) as [Ho Hq].
    split; [unfold stage_walsh, block_walsh, for_up; by symbols_tac|].
    split; [by rewrite stage_walsh_len|].
    split; [done|]. split; [done|].
    intros b k Hb Hk Hfit.
    destruct (stage_walsh_at p e x b k He Hnx Hb Hk Hfit) as [H1 H2].
    destruct (butterfly_fold (rd x (2 * 2 ^ Z.of_nat e * b + k))
                (rd x (2 * 2 ^ Z.of_nat e * b + 2 ^ Z.of_nat e + k))
                (Hx _) (Hx _)) as (Hphi & Hr1 & Hr2 & Hc1 & Hc2).
    rewrite Hphi in H1, H2. cbn [fst snd] in H1, H2.
    split; [exact H1|]. split; [exact H2|]. done.
Qed.

Lemma walsh_entries_up_to_MODULO_witness :
  symbols (of_list [65535; 0; 1; 0]) ∧
  2 ^ Z.of_nat 2 ≤ len (of_list [65535; 0; 1; 0]) ∧
  ((∀ size i, 0 ≤ rd (walsh (of_list [65535; 0; 1; 0]) size) i ≤ MODULO) ∧
  walsh (of_list [65535; 0; 1; 0]) (2 ^ Z.of_nat 2)
    = foldl (λ x d, stage_walsh (2 ^ Z.of_nat 2) d x) (of_list [65535; 0; 1; 0]) (pows 2) ∧
  ∀ (e : nat) (x : buf),
    (e < 2)%nat → symbols x → len x = len (of_list [65535; 0; 1; 0]) →
    symbols (stage_walsh (2 ^ Z.of_nat 2) (2 ^ Z.of_nat e) x) ∧
    len (stage_walsh (2 ^ Z.of_nat 2) (2 ^ Z.of_nat e) x) = len (of_list [65535; 0; 1; 0]) ∧
    oob (stage_walsh (2 ^ Z.of_nat 2) (2 ^ Z.of_nat e) x) = oob x ∧
    (∀ q, ¬ (0 ≤ q < 2 ^ Z.of_nat 2) →
          rd (stage_walsh (2 ^ Z.of_nat 2) (2 ^ Z.of_nat e) x) q = rd x q) ∧
    ∀ b k : Z,
      0 ≤ b → 0 ≤ k < 2 ^ Z.of_nat e →
      2 * 2 ^ Z.of_nat e * b + 2 * 2 ^ Z.of_nat e ≤ 2 ^ Z.of_nat 2 →
      rd (stage_walsh (2 ^ Z.of_nat 2) (2 ^ Z.of_nat e) x)
         (2 * 2 ^ Z.of_nat e * b + k)
        = fold_red (rd x (2 * 2 ^ Z.of_nat e * b + k)
                    + rd x (2 * 2 ^ Z.of_nat e * b + 2 ^ Z.of_nat e + k)) ∧
      rd (stage_walsh (2 ^ Z.of_nat 2) (2 ^ Z.of_nat e) x)
         (2 * 2 ^ Z.of_nat e * b + 2 ^ Z.of_nat e + k)
        = fold_red (rd x (2 * 2 ^ Z.of_nat e * b + k) + MODULO
                    - rd x (2 * 2 ^ Z.of_nat e * b + 2 ^ Z.of_nat e + k)) ∧
      0 ≤ fold_red (rd x (2 * 2 ^ Z.of_nat e * b + k)
                    + rd x (2 * 2 ^ Z.of_nat e * b + 2 ^ Z.of_nat e + k)) ≤ MODULO ∧
      0 ≤ fold_red (rd x (2 * 2 ^ Z.of_nat e * b + k) + MODULO
                    - rd x (2 * 2 ^ Z.of_nat e * b + 2 ^ Z.of_nat e + k)) ≤ MODULO ∧
      fold_red (rd x (2 * 2 ^ Z.of_nat e * b + k)
                + rd x (2 * 2 ^ Z.of_nat e * b + 2 ^ Z.of_nat e + k)) `mod` MODULO
        = (rd x (2 * 2 ^ Z.of_nat e * b + k)
           + rd x (2 * 2 ^ Z.of_nat e * b + 2 ^ Z.of_nat e + k)) `mod` MODULO ∧
      fold_red (rd x (2 * 2 ^ Z.of_nat e * b + k) + MODULO
                - rd x (2 * 2 ^ Z.of_nat e * b + 2 ^ Z.of_nat e + k)) `mod` MODULO
        = (rd x (2 * 2 ^ Z.of_nat e * b + k)
           - rd x (2 * 2 ^ Z.of_nat e * b + 2 ^ Z.of_nat e + k)) `mod` MODULO).
Proof.
  split; [apply symbols_of_list|]. split; [vm_compute; discriminate|].
  apply (walsh_entries_up_to_MODULO (of_list [65535; 0; 1; 0]) 2).
  - apply symbols_of_list.
  - vm_compute; discriminate.
Defined.

(** C5, counterexample: for [a = 1] and [b = 65535] the fold reduction gives
    the index 65535, while the remainder of [LOG_TABLE[a] + b] modulo
    [2^16 - 1] is 0. *)
Lemma mulE_index_is_not_the_remainder :
  mulE_index (setup tables0) 1 65535 = 65535 ∧
  (rd (LOG_TABLE (setup tables0)) 1 + 65535) `mod` MODULO = 0.
Proof.
  unfold mulE_index. rew (setup_LOG tables0). rew init_LOG_1.
  split; reflexivity.
Qed.

(** C5, amended: with the tables of [setup], for a field element [a] and an
    exponent [0 <= b <= MODULO], [mulE a b] is 0 when [a] is 0; otherwise
    [LOG_TABLE[a] + b] is below [2 * MODULO], one fold reduction gives an index
    in [0, MODULO], a valid index of [EXP_TABLE], and [mulE] returns the entry
    at that index.  The index is the remainder modulo [MODULO] except when the
    sum is [MODULO], where it is [MODULO] and not 0; the value returned is
    nevertheless the entry at the remainder, because
    [EXP_TABLE[MODULO] = EXP_TABLE[0]]. *)
Theorem mulE_table_index (a b : Z) :
  0 ≤ a < FIELD_SIZE → 0 ≤ b ≤ MODULO →
  (a = 0 → mulE (setup tables0) a b = 0) ∧
  (a ≠ 0 →
     0 ≤ rd (LOG_TABLE (setup tables0)) a + b < 2 * MODULO ∧
     0 ≤ mulE_index (setup tables0) a b ≤ MODULO ∧
     mulE (setup tables0) a b
       = rd (EXP_TABLE (setup tables0)) (mulE_index (setup tables0) a b) ∧
     mulE_index (setup tables0) a b =
       (if rd (LOG_TABLE (setup tables0)) a + b =? MODULO then MODULO
        else (rd (LOG_TABLE (setup tables0)) a + b) `mod` MODULO) ∧
     mulE (setup tables0) a b
       = rd (EXP_TABLE (setup tables0))
            ((rd (LOG_TABLE (setup tables0)) a + b) `mod` MODULO)).
Proof.
  intros Ha Hb.
  exact (mulE_by_index (setup tables0) setup_LOG_range setup_EXP_MODULO a b Ha Hb).
Qed.

Lemma mulE_table_index_witness :
  0 ≤ 1 < FIELD_SIZE ∧ 0 ≤ 65535 ≤ MODULO ∧
  (1 = 0 → mulE (setup tables0) 1 65535 = 0) ∧
  (1 ≠ 0 →
     0 ≤ rd (LOG_TABLE (setup tables0)) 1 + 65535 < 2 * MODULO ∧
     0 ≤ mulE_index (setup tables0) 1 65535 ≤ MODULO ∧
     mulE (setup tables0) 1 65535
       = rd (EXP_TABLE (setup tables0)) (mulE_index (setup tables0) 1 65535) ∧
     mulE_index (setup tables0) 1 65535 =
       (if rd (LOG_TABLE (setup tables0)) 1 + 65535 =? MODULO then MODULO
        else (rd (LOG_TABLE (setup tables0)) 1 + 65535) `mod` MODULO) ∧
     mulE (setup tables0) 1 65535
       = rd (EXP_TABLE (setup tables0))
            ((rd (LOG_TABLE (setup tables0)) 1 + 65535) `mod` MODULO)).
Proof.
  split; [split; [lia|reflexivity]|]. split; [split; [lia|discriminate]|].
  apply (mulE_table_index 1 65535).
  - split; [lia|reflexivity].
  - split; [lia|discriminate].
Defined.

(** C6: after [init], on the tables of a starting program,
    [EXP_TABLE[LOG_TABLE[x]] = x] for every nonzero 16-bit [x]. *)
Theorem init_exp_log_inverse (x : Z) :
  0 < x < FIELD_SIZE →
  rd (EXP_TABLE (init tables0)) (rd (LOG_TABLE (init tables0)) x) = x.
Proof. intros Hx. exact (proj1 (init_tables x Hx)). Qed.

Lemma init_exp_log_inverse_witness :
  0 < 40503 < FIELD_SIZE ∧
  rd (EXP_TABLE (init tables0)) (rd (LOG_TABLE (init tables0)) 40503) = 40503.
Proof.
  split; [split; reflexivity|].
  apply (init_exp_log_inverse 40503). split; reflexivity.
Defined.

(** C7, counterexample: in the scenario [k = 4], [n = 8], message 1 2 3 5,
    positions 0 and 1 erased, positions 2 and 3 hold 0 after [decode_main],
    not 3 and 5. *)
Lemma decode_k4_n8_clears_known_positions :
  rd (scenario_k4_n8 (zeros FIELD_SIZE)) 2 = 0 ∧
  rd (scenario_k4_n8 (zeros FIELD_SIZE)) 3 = 0.
Proof.
  destruct (scenario_k4_n8_facts (zeros FIELD_SIZE) eq_refl)
    as (_ & _ & H2 & H3 & _).
  exact (conj H2 H3).
Qed.

(** C7, amended: in that scenario, whatever the scratch array of [FIELD_SIZE]
    symbols holds before [decode_init], after [decode_main] the codeword holds
    1 at position 0 and 2 at position 1, the erased message symbols, and 0 at
    positions 2 and 3; no store falls outside the codeword. *)
Theorem decode_k4_n8_restores_erased (scratch : buf) :
  len scratch = FIELD_SIZE →
  rd (scenario_k4_n8 scratch) 0 = 1 ∧ rd (scenario_k4_n8 scratch) 1 = 2 ∧
  rd (scenario_k4_n8 scratch) 2 = 0 ∧ rd (scenario_k4_n8 scratch) 3 = 0 ∧
  oob (scenario_k4_n8 scratch) = None.
Proof. intros Hl. exact (scenario_k4_n8_facts scratch Hl). Qed.

Lemma decode_k4_n8_restores_erased_witness :
  len (zeros FIELD_SIZE) = FIELD_SIZE ∧
  rd (scenario_k4_n8 (zeros FIELD_SIZE)) 0 = 1 ∧
  rd (scenario_k4_n8 (zeros FIELD_SIZE)) 1 = 2 ∧
  rd (scenario_k4_n8 (zeros FIELD_SIZE)) 2 = 0 ∧
  rd (scenario_k4_n8 (zeros FIELD_SIZE)) 3 = 0 ∧
  oob (scenario_k4_n8 (zeros FIELD_SIZE)) = None.
Proof.
  split; [reflexivity|].
  apply (decode_k4_n8_restores_erased (zeros FIELD_SIZE)). reflexivity.
Defined.

(** C8: after [decode_main], every position [i < k] at which the erasure mask
    is false holds 0, for any tables, codeword, mask, locator array and [n]. *)
Theorem decode_main_zeroes_known (t : tables) (codeword : buf) (k : Z)
    (erasure log_walsh2 : buf) (n i : Z) :
  0 ≤ i < k → rd erasure i = 0 →
  rd (decode_main t codeword k erasure log_walsh2 n) i = 0.
Proof.
  intros Hi He. unfold decode_main, decode_recover, for_up.
  set (c := FLT _ _ _ _ _).
  destruct (inb c i) eqn:Hin.
  - apply (store_loop_hit
             (λ j c, if negb (rd erasure j =? 0)
                     then mulE t (rd c j) (rd log_walsh2 j) else 0)
             (λ v, v = 0)).
    + apply NoDup_up. lia.
    + by apply elem_of_up_1.
    + done.
    + intros c'. by rewrite He.
  - apply rd_out. rewrite <- Hin. apply inb_len.
    apply (store_loop_len
             (λ j c, if negb (rd erasure j =? 0)
                     then mulE t (rd c j) (rd log_walsh2 j) else 0)).
Qed.

Lemma decode_main_zeroes_known_witness :
  0 ≤ 2 < 4 ∧ rd (mask_of [0; 1]) 2 = 0 ∧
  rd (decode_main (setup tables0) (of_list [0; 0; 3; 5; 7; 11; 13; 17]) 4
        (mask_of [0; 1]) (of_list locator01) 8) 2 = 0.
Proof.
  split; [lia|]. split; [reflexivity|].
  apply (decode_main_zeroes_known (setup tables0)); [lia|reflexivity].
Defined.

(** C9 (code defect): [setup] is not idempotent.  The doubling passes of
    [init_dec] never store into [skewVec[32767]], so the final pass takes the
    logarithm of what the previous [setup] left there: the entry is 65535
    after the first [setup] and 45925 after the second. *)
Theorem setup_twice_changes_skewVec :
  rd (skewVec (setup tables0)) 32767 = 65535 ∧
  rd (skewVec (setup (setup tables0))) 32767 = 45925.
Proof.
  destruct (cert_again_spec _ _ cert_again_ok) as [H1 H2].
  exact (conj H1 H2).
Qed.

(** C10, counterexample: with [n = 2] and the mask true at positions 0 and 1,
    two scratch arrays that differ only at entry 5 give different first
    entries. *)
Lemma decode_init_depends_on_scratch :
  rd (decode_init (setup tables0) (mask_of [0; 1]) (zeros FIELD_SIZE) 2) 0 = 1 ∧
  rd (decode_init (setup tables0) (mask_of [0; 1]) (wr (zeros FIELD_SIZE) 5 1) 2) 0
  = 8106.
Proof. exact scratch_matters. Qed.

(** C10, amended: two runs of [decode_init] with the same mask and [n], on
    scratch arrays of the same length that agree from entry [n] on, give the
    same array.  The result depends on the entries [n .. 2^16] of the scratch
    array, but not on its first [n] entries; for [n = 2^16] it does not depend
    on the scratch array at all. *)
Theorem decode_init_scratch_tail (t : tables) (erasure s1 s2 : buf) (n : Z) :
  len s1 = len s2 → (∀ i, n ≤ i → rd s1 i = rd s2 i) →
  same (decode_init t erasure s1 n) (decode_init t erasure s2 n).
Proof. intros Hl Hr. exact (decode_init_scratch t erasure s1 s2 n Hl Hr). Qed.

Lemma decode_init_scratch_tail_witness :
  len (zeros FIELD_SIZE) = len (wr (zeros FIELD_SIZE) 0 7) ∧
  (∀ i, 1 ≤ i → rd (zeros FIELD_SIZE) i = rd (wr (zeros FIELD_SIZE) 0 7) i) ∧
  same (decode_init (setup tables0) (mask_of [0; 1]) (zeros FIELD_SIZE) 1)
       (decode_init (setup tables0) (mask_of [0; 1]) (wr (zeros FIELD_SIZE) 0 7) 1).
Proof.
  assert (∀ i, 1 ≤ i → rd (zeros FIELD_SIZE) i = rd (wr (zeros FIELD_SIZE) 0 7) i)
    as Hr by (intros i Hi; rewrite rd_wr_ne by lia; reflexivity).
  split; [reflexivity|]. split; [exact Hr|].
  apply (decode_init_scratch_tail (setup tables0) (mask_of [0; 1])
           (zeros FIELD_SIZE) (wr (zeros FIELD_SIZE) 0 7) 1 eq_refl Hr).
Defined.

(** ** Loops whose stores stay inside the array *)

Lemma wr_kept a i v :
  0 ≤ i < len a → len (wr a i v) = len a ∧ oob (wr a i v) = oob a.
Proof. intros Hi. split; [apply len_wr|]. apply oob_wr_in, inb_spec, Hi. Qed.

Lemma foldl_kept {E} (n : Z) (o : option Z) (f : buf → E → buf) (l : list E) a :
  len a = n ∧ oob a = o →
  (∀ a x, x ∈ l → len a = n ∧ oob a = o → len (f a x) = n ∧ oob (f a x) = o) →
  len (foldl f a l) = n ∧ oob (foldl f a l) = o.
Proof. intros Ha Hf. by apply (foldl_inv (λ a, len a = n ∧ oob a = o)). Qed.

(** A loop of stores at [doff + j]. *)
Section shift_loop.
Context (doff : Z) (g : Z → Z).

Local Abbreviation sstep := (λ (c : buf) (j : Z), wr c (doff + j) (g j)).

Lemma shift_loop_miss l c q :
  (∀ j, j ∈ l → q ≠ doff + j) → rd (foldl sstep c l) q = rd c q.
Proof.
  revert c. induction l as [|j l IH]; intros c Hq; simpl; [done|].
  rewrite IH.
  - apply rd_wr_ne. intros Heq. by apply (Hq j); [left|].
  - intros j' Hj'. apply Hq. by right.
Qed.

Lemma shift_loop_hit l c i :
  NoDup l → i ∈ l → inb c (doff + i) = true →
  rd (foldl sstep c l) (doff + i) = u16 (g i).
Proof.
  intros Hl. revert c. induction Hl as [|j l Hj Hl IH]; intros c Hi Hin; simpl.
  - by apply elem_of_nil in Hi.
  - apply elem_of_cons in Hi as [->|Hi].
    + rewrite shift_loop_miss.
      * by apply rd_wr_eq.
      * intros j' Hj' Heq. assert (j = j') as -> by lia. done.
    + apply IH; [done|]. by rewrite inb_wr.
Qed.

Lemma shift_loop_kept l c :
  (∀ j, j ∈ l → 0 ≤ doff + j < len c) →
  len (foldl sstep c l) = len c ∧ oob (foldl sstep c l) = oob c.
Proof.
  intros Hin. apply foldl_kept; [done|].
  intros a j Hj [Ha Ho]. destruct (wr_kept a (doff + j) (g j)) as [H1 H2].
  - rewrite Ha. by apply Hin.
  - split; congruence.
Qed.
End shift_loop.

Lemma memcpy_loop dst doff src soff count :
  memcpy dst doff src soff count
  = foldl (λ c j, wr c (doff + j) (rd src (soff + j))) dst (up 0 count 1).
Proof. reflexivity. Qed.

Lemma rd_memcpy_in dst doff src soff count i :
  0 ≤ i < count → 0 ≤ doff + i < len dst →
  rd (memcpy dst doff src soff count) (doff + i) = u16 (rd src (soff + i)).
Proof.
  intros Hi Hin. rewrite memcpy_loop.
  apply (shift_loop_hit doff (λ j, rd src (soff + j))).
  - apply NoDup_up. lia.
  - by apply elem_of_up_1.
  - by apply inb_spec.
Qed.

Lemma rd_memcpy_out dst doff src soff count q :
  ¬ (doff ≤ q < doff + count) →
  rd (memcpy dst doff src soff count) q = rd dst q.
Proof.
  intros Hq. rewrite memcpy_loop.
  apply (shift_loop_miss doff (λ j, rd src (soff + j))).
  intros j Hj%elem_of_up_1. lia.
Qed.

Lemma memcpy_kept dst doff src soff count :
  0 ≤ doff → doff + count ≤ len dst →
  len (memcpy dst doff src soff count) = len dst ∧
  oob (memcpy dst doff src soff count) = oob dst.
Proof.
  intros Hd Hc. rewrite memcpy_loop.
  apply (shift_loop_kept doff (λ j, rd src (soff + j))).
  intros j Hj%elem_of_up_1. lia.
Qed.

(** A loop that replaces each cell by a function of its contents. *)
Lemma map_loop_hit (f : Z → Z) l c i :
  NoDup l → i ∈ l → inb c i = true →
  rd (foldl (λ c j, wr c j (f (rd c j))) c l) i = u16 (f (rd c i)).
Proof.
  intros Hl. revert c. induction Hl as [|j l Hj Hl IH]; intros c Hi Hin; simpl.
  - by apply elem_of_nil in Hi.
  - apply elem_of_cons in Hi as [->|Hi].
    + rewrite (store_loop_miss (λ j c, f (rd c j))) by done.
      by apply rd_wr_eq.
    + rewrite IH; [|done|by rewrite inb_wr].
      rewrite rd_wr_ne; [done|]. intros ->. done.
Qed.

(** ** The transforms store inside their block *)

Section transform_frame.
Context (t : tables) (p : nat) (off index : Z) (x : buf).
Context (Hoff : 0 ≤ off) (Hlen : off + 2 ^ Z.of_nat p ≤ len x).

Local Abbreviation fsize := (2 ^ Z.of_nat p).
Local Abbreviation framed :=
  (λ a : buf, len a = len x ∧ oob a = oob x ∧
              ∀ q, ¬ (off ≤ q < off + fsize) → rd a q = rd x q).

Lemma stage_block_range (e : nat) j q :
  (e < p)%nat → j ∈ up (2 ^ Z.of_nat e) fsize (2 ^ Z.of_nat e ≪ 1) →
  ¬ (off ≤ q < off + fsize) →
  ¬ (off + j - 2 ^ Z.of_nat e ≤ q < off + j - 2 ^ Z.of_nat e + 2 * 2 ^ Z.of_nat e).
Proof.
  intros He Hj Hq.
  destruct (stage_blocks p e off (off + fsize) j) as [_ Hhi]; [done|done|lia|done|].
  assert (0 < 2 ^ Z.of_nat e) as Hd by (apply Z.pow_pos_nonneg; lia).
  rewrite shiftl_1 in Hj. apply elem_of_up in Hj as [Hj _]; [|lia]. lia.
Qed.

Lemma stageI_frame (e : nat) a :
  (e < p)%nat → framed a → framed (stageI t off fsize index (2 ^ Z.of_nat e) a).
Proof.
  intros He (Ha & Ho & Hq).
  pose proof (stageI_ops t p off index x Hoff Hlen e He) as Hops.
  unfold stageI, for_up. split; [|split].
  - by apply (stage_len _ _ _ _ _ _ _ Hops).
  - rewrite <- Ho. by apply (stage_oob _ _ _ _ _ _ _ Hops).
  - intros q Hout. rewrite <- (Hq q Hout).
    apply (stage_out _ _ _ _ _ _ _ _ Hops Ha).
    intros j Hj. by apply stage_block_range.
Qed.

Lemma stageF_frame (e : nat) a :
  (e < p)%nat → framed a → framed (stageF t off fsize index (2 ^ Z.of_nat e) a).
Proof.
  intros He (Ha & Ho & Hq).
  pose proof (stageF_ops t p off index x Hoff Hlen e He) as Hops.
  unfold stageF, for_up. split; [|split].
  - by apply (stage_len _ _ _ _ _ _ _ Hops).
  - rewrite <- Ho. by apply (stage_oob _ _ _ _ _ _ _ Hops).
  - intros q Hout. rewrite <- (Hq q Hout).
    apply (stage_out _ _ _ _ _ _ _ _ Hops Ha).
    intros j Hj. by apply stage_block_range.
Qed.

Lemma IFLT_frame : framed (IFLT t x off fsize index).
Proof.
  rewrite IFLT_stages, shl_up_pow2. apply (foldl_inv framed); [done|].
  intros a d (e & He & ->)%elem_of_pows Ha. by apply stageI_frame.
Qed.

Lemma FLT_frame : framed (FLT t x off fsize index).
Proof.
  rewrite FLT_stages, shr_down_pow2. apply (foldl_inv framed); [done|].
  intros a d Hd Ha. apply elem_of_rev, elem_of_pows in Hd as (e & He & ->).
  by apply stageF_frame.
Qed.
End transform_frame.

(** ** [walsh] stores inside its first [size] cells *)

Lemma walsh_frame (p : nat) x :
  2 ^ Z.of_nat p ≤ len x →
  len (walsh x (2 ^ Z.of_nat p)) = len x ∧
  oob (walsh x (2 ^ Z.of_nat p)) = oob x ∧
  ∀ q, ¬ (0 ≤ q < 2 ^ Z.of_nat p) → rd (walsh x (2 ^ Z.of_nat p)) q = rd x q.
Proof.
  intros Hn. rewrite walsh_stages, shl_up_pow2.
  apply (foldl_inv (λ a, len a = len x ∧ oob a = oob x ∧
           ∀ q, ¬ (0 ≤ q < 2 ^ Z.of_nat p) → rd a q = rd x q)); [done|].
  intros a d (e & He & ->)%elem_of_pows (Ha & Ho & Hq).
  destruct (stage_walsh_frame p e a He) as [H1 H2]; [lia|].
  split; [by rewrite stage_walsh_len|]. split; [congruence|].
  intros q Hout. rewrite H2 by done. by apply Hq.
Qed.

(** ** The formal derivative *)

(** [leng], the lowest set bit of [i], is at most [i]. *)
Lemma leng_range i : 1 ≤ i → 0 ≤ (Z.lxor i (i - 1) + 1) ≫ 1 ≤ i.
Proof.
  intros Hi. set (v := Z.lxor i (i - 1)).
  assert (0 ≤ v) as Hv by (apply Z.lxor_nonneg; lia).
  assert (v < 2 * i) as Hlt.
  { destruct (decide (v = 0)) as [->|Hne]; [lia|].
    pose proof (Z.log2_lxor i (i - 1) ltac:(lia) ltac:(lia)) as Hlog.
    pose proof (Z.log2_le_mono (i - 1) i ltac:(lia)) as Hmono.
    fold v in Hlog.
    destruct (Z.log2_spec v) as [_ Hv2]; [lia|].
    destruct (Z.log2_spec i) as [Hi2 _]; [lia|].
    assert (2 ^ Z.succ (Z.log2 v) ≤ 2 ^ Z.succ (Z.log2 i)) as Hpow
      by (apply Z.pow_le_mono_r; lia).
    rewrite Z.pow_succ_r in Hpow by apply Z.log2_nonneg.
    rewrite (Z.pow_succ_r 2 (Z.log2 i)) in Hpow by apply Z.log2_nonneg.
    rewrite Z.pow_succ_r in Hv2 by apply Z.log2_nonneg. lia. }
  rewrite Z.shiftr_div_pow2 by lia. change (2 ^ 1) with 2.
  split; [apply Z.div_pos; lia|]. apply Z.div_le_upper_bound; lia.
Qed.

Lemma formal_derivative_frame cos size :
  size ≤ len cos →
  len (formal_derivative cos size) = len cos ∧
  oob (formal_derivative cos size) = oob cos ∧
  ∀ q, size - 1 ≤ q → rd (formal_derivative cos size) q = rd cos q.
Proof.
  intros Hn. unfold formal_derivative, for_up.
  apply (foldl_inv (λ a, len a = len cos ∧ oob a = oob cos ∧
           ∀ q, size - 1 ≤ q → rd a q = rd cos q)); [done|].
  intros a i Hi%elem_of_up_1 Ha. cbv zeta.
  pose proof (leng_range i ltac:(lia)) as Hleng.
  apply (foldl_inv (λ a, len a = len cos ∧ oob a = oob cos ∧
           ∀ q, size - 1 ≤ q → rd a q = rd cos q)); [done|].
  intros c j Hj%elem_of_up_1 (Hc & Ho & Hq).
  destruct (wr_kept c j (Z.lxor (rd c j) (rd c (j + (Z.lxor i (i - 1) + 1) ≫ 1))))
    as [H1 H2]; [lia|].
  split; [congruence|]. split; [congruence|].
  intros q Hout. rewrite rd_wr_ne by lia. by apply Hq.
Qed.

(** ** The erasure step of the driver *)

Lemma rd_erase_loop erasure l c i :
  rd (foldl (λ c j, if negb (rd erasure j =? 0) then wr c j 0 else c) c l) i
  = if decide (i ∈ l ∧ rd erasure i ≠ 0) then 0 else rd c i.
Proof.
  revert c. induction l as [|j l IH]; intros c; simpl.
  - reflexivity.
  - rewrite IH. clear IH.
    destruct (decide (i ∈ l ∧ rd erasure i ≠ 0)) as [[Hl He]|Hn].
    + rewrite decide_True; [done|]. split; [by right|done].
    + destruct (rd erasure j =? 0) eqn:Ej; simpl.
      * apply Z.eqb_eq in Ej. case_decide as H; [|done].
        destruct H as [[->|H]%elem_of_cons He]; [done|]. by destruct Hn.
      * apply Z.eqb_neq in Ej. rewrite rd_wr.
        destruct (decide (j = i)) as [->|Hji].
        -- rewrite decide_True; [|split; [left|done]].
           by destruct (inb c i).
        -- rewrite decide_False; [done|].
           intros [[->|H]%elem_of_cons He]; [done|]. by destruct Hn.
Qed.

(** ** Multiplication with the tables of [setup] *)

Section mulE_units.
Context (t : tables).
Context (Hinv : ∀ x, 0 < x < FIELD_SIZE →
                     rd (EXP_TABLE t) (rd (LOG_TABLE t) x) = x).
Context (Hlog : ∀ x, 0 < x < FIELD_SIZE → 0 ≤ rd (LOG_TABLE t) x < MODULO).
Context (Hexp : rd (EXP_TABLE t) MODULO = rd (EXP_TABLE t) 0).

Lemma mulE_units a :
  0 < a < FIELD_SIZE → mulE t a 0 = a ∧ mulE t a MODULO = a.
Proof.
  intros Ha. pose proof (Hlog a Ha) as Hl. pose proof (Hinv a Ha) as Hi.
  pose proof MODULO_eq as HM. split.
  - rewrite mulE_nonzero by (done || lia). unfold mulE_index.
    rewrite Z.add_0_r, fold_red_small by lia. done.
  - rewrite mulE_nonzero by (done || lia). unfold mulE_index.
    destruct (decide (rd (LOG_TABLE t) a = 0)) as [E|E].
    + rewrite E in *. rewrite Z.add_0_l, fold_red_MODULO, Hexp. done.
    + rewrite fold_red_large by lia.
      replace (rd (LOG_TABLE t) a + MODULO - 65535) with (rd (LOG_TABLE t) a) by lia.
      done.
Qed.
End mulE_units.

Lemma setup_inverse x :
  0 < x < FIELD_SIZE →
  rd (EXP_TABLE (setup tables0)) (rd (LOG_TABLE (setup tables0)) x) = x.
Proof.
  intros Hx. rew (setup_LOG tables0). rew (setup_EXP tables0).
  exact (proj1 (init_tables x Hx)).
Qed.

(** * Further properties of the program *)

(** X1: the assertions of [test_flt_roundtrip] hold, whatever the tables
    contain, also before [setup]: [IFLT] undoes [FLT] on the 16 symbols of
    [expected] with index 4. *)
Theorem test_flt_roundtrip_passes (t : tables) : test_flt_roundtrip t = true.
Proof.
  unfold test_flt_roundtrip. cbv zeta. apply forallb_forall.
  intros i Hi%list_elem_of_In%elem_of_up_1. apply Z.eqb_eq.
  set (x := memcpy (zeros 16) 0 (of_list test_flt_expected) 0 16).
  assert (symbols x) as Hs by apply symbols_memcpy, symbols_zeros.
  assert (0 + 2 ^ Z.of_nat 4 ≤ len x) as Hlen
    by (unfold x; rewrite len_memcpy; vm_compute; discriminate).
  destruct (IFLT_FLT t 4 0 (16 `quot` 4) x ltac:(lia) Hlen Hs) as [[_ Hr] _].
  etrans; [exact (Hr i)|]. unfold x.
  pose proof (rd_memcpy_in (zeros 16) 0 (of_list test_flt_expected) 0 16 i Hi)
    as Hm.
  rewrite !Z.add_0_l in Hm. rewrite Hm by (change (len (zeros 16)) with 16; lia).
  apply symbols_u16, symbols_of_list.
Qed.

(** X2: [encodeL] is systematic: position [i < k] of the codeword holds the
    message symbol [data[i]]. *)
Theorem encodeL_systematic (t : tables) (data : buf) (k : Z) (codeword : buf)
    (n i : Z) :
  0 ≤ i < k → i < len codeword →
  rd (encodeL t data k codeword n) i = u16 (rd data i).
Proof.
  intros Hi Hin. pose proof (len_encodeL t data k codeword n) as Hl.
  unfold encodeL in *. rewrite len_memcpy in Hl.
  set (c := for_up k n k _ _) in *.
  pose proof (rd_memcpy_in c 0 data 0 k i Hi) as Hm.
  rewrite !Z.add_0_l in Hm. apply Hm. lia.
Qed.

Lemma encodeL_systematic_witness :
  0 ≤ 1 < 2 ∧ 1 < len (zeros 4) ∧
  rd (encodeL tables0 (of_list [7; 9]) 2 (zeros 4) 4) 1 = u16 (rd (of_list [7; 9]) 1).
Proof.
  split; [lia|]. split; [reflexivity|].
  apply (encodeL_systematic tables0 (of_list [7; 9]) 2 (zeros 4) 4 1);
    [lia|reflexivity].
Defined.

(** X3: on a block of [2 ^ p] cells at offset [off] inside the array, [IFLT]
    and [FLT] keep the length, store nothing out of bounds and leave every
    cell outside the block as it is. *)
Theorem transform_pair_in_block (t : tables) (p : nat) (off index : Z) (x : buf) :
  0 ≤ off → off + 2 ^ Z.of_nat p ≤ len x →
  (len (IFLT t x off (2 ^ Z.of_nat p) index) = len x ∧
   oob (IFLT t x off (2 ^ Z.of_nat p) index) = oob x ∧
   ∀ q, ¬ (off ≤ q < off + 2 ^ Z.of_nat p) →
        rd (IFLT t x off (2 ^ Z.of_nat p) index) q = rd x q) ∧
  (len (FLT t x off (2 ^ Z.of_nat p) index) = len x ∧
   oob (FLT t x off (2 ^ Z.of_nat p) index) = oob x ∧
   ∀ q, ¬ (off ≤ q < off + 2 ^ Z.of_nat p) →
        rd (FLT t x off (2 ^ Z.of_nat p) index) q = rd x q).
Proof.
  intros Hoff Hlen. split.
  - exact (IFLT_frame t p off index x Hoff Hlen).
  - exact (FLT_frame t p off index x Hoff Hlen).
Qed.

Lemma transform_pair_in_block_witness :
  0 ≤ 4 ∧ 4 + 2 ^ Z.of_nat 2 ≤ len (of_list test_flt_expected) ∧
  (len (IFLT tables0 (of_list test_flt_expected) 4 (2 ^ Z.of_nat 2) 4)
     = len (of_list test_flt_expected) ∧
   oob (IFLT tables0 (of_list test_flt_expected) 4 (2 ^ Z.of_nat 2) 4)
     = oob (of_list test_flt_expected) ∧
   ∀ q, ¬ (4 ≤ q < 4 + 2 ^ Z.of_nat 2) →
        rd (IFLT tables0 (of_list test_flt_expected) 4 (2 ^ Z.of_nat 2) 4) q
        = rd (of_list test_flt_expected) q) ∧
  (len (FLT tables0 (of_list test_flt_expected) 4 (2 ^ Z.of_nat 2) 4)
     = len (of_list test_flt_expected) ∧
   oob (FLT tables0 (of_list test_flt_expected) 4 (2 ^ Z.of_nat 2) 4)
     = oob (of_list test_flt_expected) ∧
   ∀ q, ¬ (4 ≤ q < 4 + 2 ^ Z.of_nat 2) →
        rd (FLT tables0 (of_list test_flt_expected) 4 (2 ^ Z.of_nat 2) 4) q
        = rd (of_list test_flt_expected) q).
Proof.
  split; [lia|]. split; [vm_compute; discriminate|].
  apply (transform_pair_in_block tables0 2 4 4 (of_list test_flt_expected));
    [lia|vm_compute; discriminate].
Defined.

(** X4: [walsh] of size [2 ^ p] on an array of at least [2 ^ p] cells keeps
    the length, stores nothing out of bounds and leaves the cells from
    [2 ^ p] on as they are. *)
Theorem walsh_in_block (p : nat) (x : buf) :
  2 ^ Z.of_nat p ≤ len x →
  len (walsh x (2 ^ Z.of_nat p)) = len x ∧
  oob (walsh x (2 ^ Z.of_nat p)) = oob x ∧
  ∀ q, ¬ (0 ≤ q < 2 ^ Z.of_nat p) → rd (walsh x (2 ^ Z.of_nat p)) q = rd x q.
Proof. intros Hn. exact (walsh_frame p x Hn). Qed.

Lemma walsh_in_block_witness :
  2 ^ Z.of_nat 2 ≤ len (of_list test_flt_expected) ∧
  len (walsh (of_list test_flt_expected) (2 ^ Z.of_nat 2))
    = len (of_list test_flt_expected) ∧
  oob (walsh (of_list test_flt_expected) (2 ^ Z.of_nat 2))
    = oob (of_list test_flt_expected) ∧
  ∀ q, ¬ (0 ≤ q < 2 ^ Z.of_nat 2) →
       rd (walsh (of_list test_flt_expected) (2 ^ Z.of_nat 2)) q
       = rd (of_list test_flt_expected) q.
Proof.
  split; [vm_compute; discriminate|].
  apply (walsh_in_block 2 (of_list test_flt_expected)). vm_compute; discriminate.
Defined.

(** X5: [formal_derivative] with [size] at most the length of the array
    keeps the length, stores nothing out of bounds and leaves the cells from
    [size - 1] on as they are. *)
Theorem formal_derivative_in_bounds (cos : buf) (size : Z) :
  size ≤ len cos →
  len (formal_derivative cos size) = len cos ∧
  oob (formal_derivative cos size) = oob cos ∧
  ∀ q, size - 1 ≤ q → rd (formal_derivative cos size) q = rd cos q.
Proof. intros Hn. exact (formal_derivative_frame cos size Hn). Qed.

Lemma formal_derivative_in_bounds_witness :
  6 ≤ len (of_list [1; 2; 3; 5; 8; 13]) ∧
  len (formal_derivative (of_list [1; 2; 3; 5; 8; 13]) 6)
    = len (of_list [1; 2; 3; 5; 8; 13]) ∧
  oob (formal_derivative (of_list [1; 2; 3; 5; 8; 13]) 6)
    = oob (of_list [1; 2; 3; 5; 8; 13]) ∧
  ∀ q, 6 - 1 ≤ q →
       rd (formal_derivative (of_list [1; 2; 3; 5; 8; 13]) 6) q
       = rd (of_list [1; 2; 3; 5; 8; 13]) q.
Proof.
  split; [vm_compute; discriminate|].
  apply (formal_derivative_in_bounds (of_list [1; 2; 3; 5; 8; 13]) 6).
  vm_compute; discriminate.
Defined.

(** X6: the final pass of [init_dec], on any tables and any array [skewVec]
    of [MODULO] cells: every cell is replaced by the logarithm of its
    contents, and the pass ends with a store at index [MODULO], past the
    array. *)
Theorem init_dec_log_spec (t : tables) (skew : buf) :
  len skew = MODULO → oob skew = None →
  (∀ i, 0 ≤ i < MODULO →
        rd (init_dec_log t skew) i = u16 (rd (LOG_TABLE t) (rd skew i))) ∧
  oob (init_dec_log t skew) = Some MODULO.
Proof.
  intros Hl Ho. split; [|exact (proj1 (init_dec_log_oob t skew Hl Ho))].
  intros i Hi. unfold init_dec_log, for_up.
  apply (map_loop_hit (λ v, rd (LOG_TABLE t) v)).
  - apply NoDup_up. lia.
  - apply elem_of_up_1. unfold MODULO in Hi. lia.
  - apply inb_spec. lia.
Qed.

Lemma init_dec_log_spec_witness :
  len (zeros MODULO) = MODULO ∧ oob (zeros MODULO) = None ∧
  (∀ i, 0 ≤ i < MODULO →
        rd (init_dec_log tables0 (zeros MODULO)) i
        = u16 (rd (LOG_TABLE tables0) (rd (zeros MODULO) i))) ∧
  oob (init_dec_log tables0 (zeros MODULO)) = Some MODULO.
Proof.
  split; [reflexivity|]. split; [reflexivity|].
  apply (init_dec_log_spec tables0 (zeros MODULO)); reflexivity.
Defined.

(** X7: with the tables of [setup], the exponents 0 and [MODULO] both act as
    the unit: [mulE a 0 = a] and [mulE a MODULO = a] for every nonzero field
    element [a]. *)
Theorem mulE_unit_exponents (a : Z) :
  0 < a < FIELD_SIZE →
  mulE (setup tables0) a 0 = a ∧ mulE (setup tables0) a MODULO = a.
Proof.
  intros Ha.
  exact (mulE_units (setup tables0) setup_inverse setup_LOG_range
           setup_EXP_MODULO a Ha).
Qed.

Lemma mulE_unit_exponents_witness :
  0 < 40503 < FIELD_SIZE ∧
  mulE (setup tables0) 40503 0 = 40503 ∧
  mulE (setup tables0) 40503 MODULO = 40503.
Proof.
  split; [split; reflexivity|].
  apply (mulE_unit_exponents 40503). split; reflexivity.
Defined.

(** X8: after [init], [LOG_TABLE] maps the nonzero 16-bit symbols into
    [0, MODULO), one to one. *)
Theorem LOG_TABLE_one_to_one (x y : Z) :
  0 < x < FIELD_SIZE → 0 < y < FIELD_SIZE →
  0 ≤ rd (LOG_TABLE (init tables0)) x < MODULO ∧
  (rd (LOG_TABLE (init tables0)) x = rd (LOG_TABLE (init tables0)) y → x = y).
Proof.
  intros Hx Hy. destruct (init_tables x Hx) as [Ex Rx].
  destruct (init_tables y Hy) as [Ey _]. split; [exact Rx|].
  clear Rx. revert Ex Ey.
  generalize (LOG_TABLE (init tables0)) (EXP_TABLE (init tables0)).
  intros L E Ex Ey H. rewrite <- Ex, <- Ey, H. reflexivity.
Qed.

Lemma LOG_TABLE_one_to_one_witness :
  0 < 2 < FIELD_SIZE ∧ 0 < 3 < FIELD_SIZE ∧
  0 ≤ rd (LOG_TABLE (init tables0)) 2 < MODULO ∧
  (rd (LOG_TABLE (init tables0)) 2 = rd (LOG_TABLE (init tables0)) 3 → 2 = 3).
Proof.
  split; [split; reflexivity|]. split; [split; reflexivity|].
  apply (LOG_TABLE_one_to_one 2 3); split; reflexivity.
Defined.

(** X9: the erasure loop of [roundtrip] keeps the length, clears the
    positions below [n] at which the mask is true and changes no other
    cell. *)
Theorem erase_spec (codeword erasure : buf) (n : Z) :
  len (erase codeword erasure n) = len codeword ∧
  ∀ i, rd (erase codeword erasure n) i
       = if decide (0 ≤ i < n ∧ rd erasure i ≠ 0) then 0 else rd codeword i.
Proof.
  unfold erase, for_up. split.
  - apply foldl_len; [done|]. intros a i Ha.
    destruct (negb _); [by rewrite len_wr|done].
  - intros i. rewrite rd_erase_loop.
    destruct (decide (0 ≤ i < n ∧ rd erasure i ≠ 0)) as [[Hi He]|Hn].
    + rewrite decide_True; [done|]. split; [by apply elem_of_up_1|done].
    + rewrite decide_False; [done|]. intros [Hi%elem_of_up_1 He].
      apply Hn. split; [lia|done].
Qed.

(** ** The decoder stores inside the codeword *)

Lemma store_loop_kept (g : Z → buf → Z) l c :
  (∀ j, j ∈ l → 0 ≤ j < len c) →
  len (foldl (λ c j, wr c j (g j c)) c l) = len c ∧
  oob (foldl (λ c j, wr c j (g j c)) c l) = oob c.
Proof.
  intros Hin. apply foldl_kept; [done|].
  intros a j Hj [Ha Ho]. destruct (wr_kept a j (g j a)) as [H1 H2].
  - rewrite Ha. by apply Hin.
  - split; congruence.
Qed.

Section decode_bounds.
Context (t : tables) (cw erasure lw2 : buf) (k : Z) (p : nat).
Context (Hp : (1 ≤ p)%nat) (Hn : 2 ^ Z.of_nat p ≤ len cw) (Hk : k ≤ len cw).

Local Abbreviation kept := (λ a : buf, len a = len cw ∧ oob a = oob cw).

Lemma kept_scale a : kept a → kept (decode_scale t a erasure lw2 (2 ^ Z.of_nat p)).
Proof.
  intros [Ha Ho]. unfold decode_scale, for_up.
  destruct (store_loop_kept
              (λ i c, if negb (rd erasure i =? 0) then 0
                      else mulE t (rd c i) (rd lw2 i))
              (up 0 (2 ^ Z.of_nat p) 1) a) as [H1 H2].
  - intros j Hj%elem_of_up_1. lia.
  - split; congruence.
Qed.

Lemma kept_recover a : kept a → kept (decode_recover t a erasure lw2 k).
Proof.
  intros [Ha Ho]. unfold decode_recover, for_up.
  destruct (store_loop_kept
              (λ i c, if negb (rd erasure i =? 0)
                      then mulE t (rd c i) (rd lw2 i) else 0)
              (up 0 k 1) a) as [H1 H2].
  - intros j Hj%elem_of_up_1. lia.
  - split; congruence.
Qed.

Lemma kept_IFLT a : kept a → kept (IFLT t a 0 (2 ^ Z.of_nat p) 0).
Proof.
  intros [Ha Ho].
  destruct (IFLT_frame t p 0 0 a) as (H1 & H2 & _); [lia|lia|].
  split; congruence.
Qed.

Lemma kept_FLT a : kept a → kept (FLT t a 0 (2 ^ Z.of_nat p) 0).
Proof.
  intros [Ha Ho].
  destruct (FLT_frame t p 0 0 a) as (H1 & H2 & _); [lia|lia|].
  split; congruence.
Qed.

Lemma kept_derivative a : kept a → kept (formal_derivative a (2 ^ Z.of_nat p)).
Proof.
  intros [Ha Ho].
  destruct (formal_derivative_frame a (2 ^ Z.of_nat p)) as (H1 & H2 & _); [lia|].
  split; congruence.
Qed.

Lemma kept_twist (m : Z → Z) a :
  kept a →
  kept (for_up 0 (2 ^ Z.of_nat p) 2 (λ i c,
          wr (wr c i (mulE t (rd c i) (m i))) (i + 1)
             (mulE t (rd (wr c i (mulE t (rd c i) (m i))) (i + 1)) (m i))) a).
Proof.
  intros Ha. unfold for_up.
  assert (2 ^ Z.of_nat p = 2 * 2 ^ Z.of_nat (p - 1)) as Heven.
  { rewrite <- Z.pow_succ_r by lia. f_equal. lia. }
  apply foldl_kept; [done|].
  intros c i Hi [Hc Ho]. apply elem_of_up in Hi as [Hi [q Hq]]; [|lia].
  destruct (wr_kept c i (mulE t (rd c i) (m i))) as [H1 H2]; [lia|].
  destruct (wr_kept (wr c i (mulE t (rd c i) (m i))) (i + 1)
              (mulE t (rd (wr c i (mulE t (rd c i) (m i))) (i + 1)) (m i)))
    as [H3 H4]; [lia|].
  split; congruence.
Qed.

Lemma decode_main_kept : kept (decode_main t cw k erasure lw2 (2 ^ Z.of_nat p)).
Proof.
  unfold decode_main. cbv zeta.
  apply kept_recover, kept_FLT, (kept_twist (λ i, rd (B t) (i ≫ 1))),
    kept_derivative, (kept_twist (λ i, MODULO - rd (B t) (i ≫ 1))),
    kept_IFLT, kept_scale.
  done.
Qed.
End decode_bounds.

Section decode_init_bounds.
Context (t : tables) (erasure s : buf) (n : Z).
Context (Hs : len s = FIELD_SIZE) (Hn : n ≤ FIELD_SIZE).

Local Abbreviation kept := (λ a : buf, len a = len s ∧ oob a = oob s).

Lemma kept_walsh a : kept a → kept (walsh a FIELD_SIZE).
Proof.
  intros [Ha Ho]. rewrite FIELD_SIZE_pow2.
  destruct (walsh_frame 16 a) as (H1 & H2 & _).
  - rewrite <- FIELD_SIZE_pow2. lia.
  - split; congruence.
Qed.

Lemma kept_stores (g : Z → buf → Z) a :
  kept a → kept (for_up 0 n 1 (λ i c, wr c i (g i c)) a).
Proof.
  intros [Ha Ho]. unfold for_up.
  destruct (store_loop_kept g (up 0 n 1) a) as [H1 H2].
  - intros j Hj%elem_of_up_1. lia.
  - split; congruence.
Qed.

Lemma decode_init_kept : kept (decode_init t erasure s n).
Proof.
  unfold decode_init. cbv zeta. unfold for_up at 1.
  apply (foldl_kept (len s) (oob s)).
  - apply kept_walsh,
      (kept_stores (λ i c, (rd c i * rd (log_walsh t) i) `mod` MODULO)),
      kept_walsh, (kept_stores (λ i c, rd erasure i)).
    done.
  - intros a i Hi%elem_of_up_1 [Ha Ho].
    destruct (negb (rd erasure i =? 0)); [|done].
    destruct (wr_kept a i (MODULO - rd a i)) as [H1 H2]; [lia|].
    split; congruence.
Qed.
End decode_init_bounds.

Section encode_bounds.
Context (t : tables) (data cw : buf) (p : nat) (m : Z).
Context (Hm : 1 ≤ m) (Hn : m * 2 ^ Z.of_nat p ≤ len cw).

Local Abbreviation kept := (λ a : buf, len a = len cw ∧ oob a = oob cw).

Lemma kept_message a : kept a → kept (memcpy a 0 data 0 (2 ^ Z.of_nat p)).
Proof.
  intros [Ha Ho].
  assert (0 < 2 ^ Z.of_nat p) as Hk by (apply Z.pow_pos_nonneg; lia).
  destruct (memcpy_kept a 0 data 0 (2 ^ Z.of_nat p)) as [H1 H2]; [lia|nia|].
  split; congruence.
Qed.

Lemma kept_block a i :
  2 ^ Z.of_nat p ≤ i < m * 2 ^ Z.of_nat p → (2 ^ Z.of_nat p | i - 2 ^ Z.of_nat p) →
  kept a →
  kept (FLT t (memcpy a i a 0 (2 ^ Z.of_nat p)) i (2 ^ Z.of_nat p) i).
Proof.
  intros Hi [c Hc] [Ha Ho].
  assert (0 < 2 ^ Z.of_nat p) as Hk by (apply Z.pow_pos_nonneg; lia).
  assert (i + 2 ^ Z.of_nat p ≤ m * 2 ^ Z.of_nat p) as Hfit.
  { assert (c + 1 < m) by nia. nia. }
  destruct (memcpy_kept a i a 0 (2 ^ Z.of_nat p)) as [H1 H2]; [lia|lia|].
  destruct (FLT_frame t p i i (memcpy a i a 0 (2 ^ Z.of_nat p)))
    as (H3 & H4 & _); [lia|lia|].
  split; congruence.
Qed.

Lemma encodeL_kept :
  kept (encodeL t data (2 ^ Z.of_nat p) cw (m * 2 ^ Z.of_nat p)).
Proof.
  assert (0 < 2 ^ Z.of_nat p) as Hk by (apply Z.pow_pos_nonneg; lia).
  unfold encodeL. cbv zeta. apply kept_message. unfold for_up.
  apply (foldl_kept (len cw) (oob cw)).
  - destruct (kept_message cw) as [H1 H2]; [done|].
    destruct (IFLT_frame t p 0 0 (memcpy cw 0 data 0 (2 ^ Z.of_nat p)))
      as (H3 & H4 & _); [lia|nia|].
    split; congruence.
  - intros a i Hi Ha. apply elem_of_up in Hi as [Hi Hdiv]; [|done].
    by apply kept_block.
Qed.
End encode_bounds.

(** ** [encodeL] with one message symbol *)

Lemma IFLT_size_1 t c off index : IFLT t c off 1 index = c.
Proof. reflexivity. Qed.

Lemma FLT_size_1 t c off index : FLT t c off 1 index = c.
Proof. reflexivity. Qed.

Lemma repeat_loop l c i :
  NoDup l → (∀ j, j ∈ l → j ≠ 0) → i ∈ l → inb c i = true →
  rd (foldl (λ c j, wr c j (rd c 0)) c l) i = u16 (rd c 0).
Proof.
  intros Hl. revert c. induction Hl as [|j l Hj Hl IH]; intros c H0 Hi Hin; simpl.
  - by apply elem_of_nil in Hi.
  - apply elem_of_cons in Hi as [->|Hi].
    + rewrite (store_loop_miss (λ _ c, rd c 0)) by done. by apply rd_wr_eq.
    + rewrite IH; [| |done|by rewrite inb_wr].
      * rewrite rd_wr_ne; [done|]. apply H0. left.
      * intros j' Hj'. apply H0. by right.
Qed.

(** X10: for [n = 2 ^ p] with [p >= 1], a codeword array of at least [n]
    symbols and [k] at most its length, [decode_main] keeps the length and
    stores nothing out of bounds, for any tables, mask and locator array. *)
Theorem decode_main_in_bounds (t : tables) (codeword : buf) (k : Z)
    (erasure log_walsh2 : buf) (p : nat) :
  (1 ≤ p)%nat → 2 ^ Z.of_nat p ≤ len codeword → k ≤ len codeword →
  len (decode_main t codeword k erasure log_walsh2 (2 ^ Z.of_nat p)) = len codeword ∧
  oob (decode_main t codeword k erasure log_walsh2 (2 ^ Z.of_nat p)) = oob codeword.
Proof.
  intros Hp Hn Hk.
  exact (decode_main_kept t codeword erasure log_walsh2 k p Hp Hn Hk).
Qed.

Lemma decode_main_in_bounds_witness :
  (1 ≤ 3)%nat ∧ 2 ^ Z.of_nat 3 ≤ len (zeros 8) ∧ 4 ≤ len (zeros 8) ∧
  len (decode_main tables0 (zeros 8) 4 (mask_of [0; 1]) (of_list locator01)
         (2 ^ Z.of_nat 3)) = len (zeros 8) ∧
  oob (decode_main tables0 (zeros 8) 4 (mask_of [0; 1]) (of_list locator01)
         (2 ^ Z.of_nat 3)) = oob (zeros 8).
Proof.
  split; [lia|]. split; [vm_compute; discriminate|].
  split; [vm_compute; discriminate|].
  apply (decode_main_in_bounds tables0 (zeros 8) 4 (mask_of [0; 1])
           (of_list locator01) 3);
    [lia|vm_compute; discriminate|vm_compute; discriminate].
Defined.

(** X11: on a scratch array of [FIELD_SIZE] symbols and for [n] at most
    [FIELD_SIZE], [decode_init] keeps the length and stores nothing out of
    bounds. *)
Theorem decode_init_in_bounds (t : tables) (erasure scratch : buf) (n : Z) :
  len scratch = FIELD_SIZE → n ≤ FIELD_SIZE →
  len (decode_init t erasure scratch n) = len scratch ∧
  oob (decode_init t erasure scratch n) = oob scratch.
Proof. intros Hs Hn. exact (decode_init_kept t erasure scratch n Hs Hn). Qed.

Lemma decode_init_in_bounds_witness :
  len (zeros FIELD_SIZE) = FIELD_SIZE ∧ 8 ≤ FIELD_SIZE ∧
  len (decode_init tables0 (mask_of [0; 1]) (zeros FIELD_SIZE) 8)
    = len (zeros FIELD_SIZE) ∧
  oob (decode_init tables0 (mask_of [0; 1]) (zeros FIELD_SIZE) 8)
    = oob (zeros FIELD_SIZE).
Proof.
  split; [reflexivity|]. split; [discriminate|].
  apply (decode_init_in_bounds tables0 (mask_of [0; 1]) (zeros FIELD_SIZE) 8);
    [reflexivity|discriminate].
Defined.

(** X12: for [k = 2 ^ p] and [n = m * k] with [m >= 1], on a codeword array
    of at least [n] symbols, [encodeL] keeps the length and stores nothing out
    of bounds. *)
Theorem encodeL_in_bounds (t : tables) (data codeword : buf) (p : nat) (m : Z) :
  1 ≤ m → m * 2 ^ Z.of_nat p ≤ len codeword →
  len (encodeL t data (2 ^ Z.of_nat p) codeword (m * 2 ^ Z.of_nat p)) = len codeword ∧
  oob (encodeL t data (2 ^ Z.of_nat p) codeword (m * 2 ^ Z.of_nat p)) = oob codeword.
Proof. intros Hm Hn. exact (encodeL_kept t data codeword p m Hm Hn). Qed.

Lemma encodeL_in_bounds_witness :
  1 ≤ 3 ∧ 3 * 2 ^ Z.of_nat 1 ≤ len (zeros 6) ∧
  len (encodeL tables0 (of_list [1; 2]) (2 ^ Z.of_nat 1) (zeros 6)
         (3 * 2 ^ Z.of_nat 1)) = len (zeros 6) ∧
  oob (encodeL tables0 (of_list [1; 2]) (2 ^ Z.of_nat 1) (zeros 6)
         (3 * 2 ^ Z.of_nat 1)) = oob (zeros 6).
Proof.
  split; [lia|]. split; [vm_compute; discriminate|].
  apply (encodeL_in_bounds tables0 (of_list [1; 2]) (zeros 6) 1 3);
    [lia|vm_compute; discriminate].
Defined.

(** X13: with [k = 1], [encodeL] is the repetition code: every position
    below [n] of the codeword holds the message symbol [data[0]]. *)
Theorem encodeL_repetition (t : tables) (data codeword : buf) (n i : Z) :
  0 ≤ i < n → n ≤ len codeword →
  rd (encodeL t data 1 codeword n) i = u16 (rd data 0).
Proof.
  intros Hi Hn. unfold encodeL. cbv zeta. rewrite IFLT_size_1.
  set (c0 := memcpy codeword 0 data 0 1).
  assert (len c0 = len codeword) as Hl0 by apply len_memcpy.
  assert (rd c0 0 = u16 (rd data 0)) as Hc0.
  { apply (rd_memcpy_in codeword 0 data 0 1 0); lia. }
  set (body := λ (i : Z) (codeword : buf), FLT t (memcpy codeword i codeword 0 1) i 1 i).
  assert (for_up 1 n 1 body c0 = foldl (λ c j, wr c j (rd c 0)) c0 (up 1 n 1)) as ->.
  { unfold for_up. apply foldl_ext_in. intros a j _. unfold body.
    rewrite FLT_size_1, memcpy_loop. change (up 0 1 1) with [0]. simpl.
    by rewrite Z.add_0_r. }
  set (c1 := foldl _ c0 _).
  assert (len c1 = len codeword) as Hl1.
  { unfold c1. rewrite (store_loop_len (λ _ c, rd c 0)). done. }
  destruct (decide (i = 0)) as [->|Hne].
  - apply (rd_memcpy_in c1 0 data 0 1 0); lia.
  - rewrite rd_memcpy_out by lia. unfold c1.
    rewrite repeat_loop.
    + by rewrite Hc0, u16_idemp.
    + apply NoDup_up. lia.
    + intros j Hj%elem_of_up_1. lia.
    + apply elem_of_up_1. lia.
    + apply inb_spec. lia.
Qed.

Lemma encodeL_repetition_witness :
  0 ≤ 2 < 3 ∧ 3 ≤ len (zeros 3) ∧
  rd (encodeL tables0 (of_list [7]) 1 (zeros 3) 3) 2 = u16 (rd (of_list [7]) 0).
Proof.
  split; [lia|]. split; [vm_compute; discriminate|].
  apply (encodeL_repetition tables0 (of_list [7]) (zeros 3) 3 2);
    [lia|vm_compute; discriminate].
Defined.
